(** * Buoyancy and VelocityControl systems: a shallow embedding

    The two systems of [src/systems] are embedded as pure functions over an
    explicit plugin state and an explicit entity-component store.  C++
    [double] is Rocq's primitive binary64 [float], so that the arithmetic
    of the source (including its behaviour on [0/0]) is the arithmetic of
    the model.  [std::map] is [gmap]; [std::map::insert], which keeps an
    existing entry, and [operator[]], which creates a default one, are
    written out. *)

From Stdlib Require Import PrimFloat ZArith String.
From Stdlib Require FloatAxioms SpecFloat FloatOps.
From stdpp Require Import gmap strings list fin_maps sorting.

Local Open Scope Z_scope.
Set Warnings "-inexact-float".

(** Entities are [uint64_t] identifiers; [kNullEntity] is 0. *)
Abbreviation Entity := Z (only parsing).
Definition kNullEntity : Entity := 0.

(** ** The part of ignition::math the systems use *)
Module math.

Record Vector3d := Vector3 { vX : float; vY : float; vZ : float }.

(** [Vector3d::Zero] *)
Definition Zero : Vector3d := Vector3 0 0 0.

(** [Vector3::operator-(const Vector3&)] *)
Definition sub (a b : Vector3d) : Vector3d :=
  Vector3 (vX a - vX b) (vY a - vY b) (vZ a - vZ b).

(** [Vector3::operator+=] *)
Definition add (a b : Vector3d) : Vector3d :=
  Vector3 (vX a + vX b) (vY a + vY b) (vZ a + vZ b).

(** [Vector3::operator/(T)]: a plain component-wise division *)
Definition div (a : Vector3d) (s : float) : Vector3d :=
  Vector3 (vX a / s) (vY a / s) (vZ a / s).

(** [operator*(T, const Vector3&)] *)
Definition scale (s : float) (v : Vector3d) : Vector3d :=
  Vector3 (vX v * s) (vY v * s) (vZ v * s).

(** [Vector3::Cross] *)
Definition Cross (a b : Vector3d) : Vector3d :=
  Vector3 (vY a * vZ b - vZ a * vY b)
          (vZ a * vX b - vX a * vZ b)
          (vX a * vY b - vY a * vX b).

Record Quaterniond := Quaternion { qw : float; qx : float; qy : float; qz : float }.

Definition Identity : Quaterniond := Quaternion 1 0 0 0.

(** [Quaternion::operator*(const Quaternion&)] *)
Definition qmul (p q : Quaterniond) : Quaterniond :=
  Quaternion
    (qw p * qw q - qx p * qx q - qy p * qy q - qz p * qz q)
    (qw p * qx q + qx p * qw q + qy p * qz q - qz p * qy q)
    (qw p * qy q - qx p * qz q + qy p * qw q + qz p * qx q)
    (qw p * qz q + qx p * qy q - qy p * qx q + qz p * qw q).

(** [math::equal(a, b)] with its default tolerance [1e-6] (rounded to the
    nearest binary64 value, as the C++ literal is) *)
Definition equal (a b : float) : bool := (abs (a - b) <=? 1e-6)%float.

(** [Quaternion::Inverse] *)
Definition Inverse (q : Quaterniond) : Quaterniond :=
  let s := (qw q * qw q + qx q * qx q + qy q * qy q + qz q * qz q)%float in
  if equal s 0 then Identity
  else Quaternion (qw q / s) (- qx q / s) (- qy q / s) (- qz q / s).

(** Modelled from the spec: [rotate(v, orientation)].  ignition-math's
    [Quaternion::RotateVector] is a dependency outside [src/]; it is
    [q * (0, v) * q^-1]. *)
Definition RotateVector (q : Quaterniond) (v : Vector3d) : Vector3d :=
  let tmp := qmul q (qmul (Quaternion 0 (vX v) (vY v) (vZ v)) (Inverse q)) in
  Vector3 (qx tmp) (qy tmp) (qz tmp).

Record Pose3d := Pose3 { Pos : Vector3d; Rot : Quaterniond }.

(** [Pose3d()] *)
Definition Pose3d_default : Pose3d := Pose3 Zero Identity.

(** Every component is NaN. *)
Definition vnan (v : Vector3d) : bool := is_nan (vX v) && is_nan (vY v) && is_nan (vZ v).

(** Every component is [+0] or [-0]. *)
Definition vzero (v : Vector3d) : bool := is_zero (vX v) && is_zero (vY v) && is_zero (vZ v).

End math.

(** ** Messages *)
Module msgs.

Record Twist := { linear : math.Vector3d; angular : math.Vector3d }.

(** A default-constructed [msgs::Twist] *)
Definition Twist_default : Twist := {| linear := math.Zero; angular := math.Zero |}.

Record Wrench := { force : math.Vector3d; torque : math.Vector3d }.

End msgs.

(** ** Collision geometry

    [sdf::GeometryType] with, for the primitive shapes, the value their
    [Shape().Volume()] returns (the closed forms live in ignition-math). *)
Inductive Geometry :=
| EMPTY
| BOX (Volume : float)
| CYLINDER (Volume : float)
| PLANE
| SPHERE (Volume : float)
| MESH (FilePath : string)
| HEIGHTMAP.

(** Modelled from the spec: the mesh library, "an opaque
    [Volume(meshFile) -> double] lookup".  [Load] gives the volume of the
    loaded mesh, or [None] when the mesh cannot be loaded. *)
Record MeshManager := {
  IsValidFilename : string → bool;
  Load : string → option float
}.

(** ** The entity-component store *)
Module ecs.

(** Modelled from the spec: the generic entity/component data store
    ([ComponentRead], [ComponentWrite], [ChildrenMatching],
    [EntitiesMatching]); [EntityComponentManager] itself is not under
    [src/].  One finite map per component type the systems touch, tag
    components as sets, and the entities in the order queries visit them.
    [WorldPose] stands for what [worldPose(entity, ecm)] of [Util.hh]
    computes from the [Pose] components. *)
Record EntityComponentManager := {
  Entities : list Entity;
  ParentEntity : gmap Entity Entity;
  Name : gmap Entity string;
  Model : gset Entity;
  Link : gset Entity;
  Collision : gset Entity;
  World : gset Entity;
  CollisionElement : gmap Entity Geometry;
  WorldPose : gmap Entity math.Pose3d;
  Inertial : gmap Entity math.Pose3d;
  Gravity : gmap Entity math.Vector3d;
  ExternalWorldWrenchCmd : gmap Entity msgs.Wrench;
  AngularVelocityCmd : gmap Entity math.Vector3d;
  LinearVelocityCmd : gmap Entity math.Vector3d
}.

(** [ChildrenByComponents(parent, Tag())] *)
Definition ChildrenByComponents (ecm : EntityComponentManager)
    (parent : Entity) (tag : gset Entity) : list Entity :=
  filter (λ e, ParentEntity ecm !! e = Some parent ∧ e ∈ tag) (Entities ecm).

(** [EntityByComponents(Tag())]: the first match, or [kNullEntity] *)
Definition EntityByComponents (ecm : EntityComponentManager)
    (tag : gset Entity) : Entity :=
  match filter (λ e, e ∈ tag) (Entities ecm) with
  | e :: _ => e
  | [] => kNullEntity
  end.

(** [worldPose(entity, ecm)]: a default pose when the entity has none *)
Definition worldPose (e : Entity) (ecm : EntityComponentManager) : math.Pose3d :=
  default math.Pose3d_default (WorldPose ecm !! e).

(** [Model::Valid] *)
Definition Valid (ecm : EntityComponentManager) (model : Entity) : bool :=
  bool_decide (model ∈ Model ecm).

(** [Model::Name]: the empty string when the entity has no name *)
Definition ModelName (ecm : EntityComponentManager) (model : Entity) : string :=
  default EmptyString (Name ecm !! model).

(** [Model::LinkByName]:
    [EntityByComponents(ParentEntity(model), Name(name), Link())] *)
Definition LinkByName (ecm : EntityComponentManager) (model : Entity)
    (name : string) : Entity :=
  match filter (λ e, ParentEntity ecm !! e = Some model
                     ∧ Name ecm !! e = Some name ∧ e ∈ Link ecm)
               (Entities ecm) with
  | e :: _ => e
  | [] => kNullEntity
  end.

(** Writing the wrench slot of an entity; [CreateComponent] when the
    entity has none, assignment through the component pointer otherwise. *)
Definition set_ExternalWorldWrenchCmd (e : Entity) (w : msgs.Wrench)
    (ecm : EntityComponentManager) : EntityComponentManager :=
  {| Entities := Entities ecm; ParentEntity := ParentEntity ecm;
     Name := Name ecm; Model := Model ecm; Link := Link ecm;
     Collision := Collision ecm; World := World ecm;
     CollisionElement := CollisionElement ecm; WorldPose := WorldPose ecm;
     Inertial := Inertial ecm; Gravity := Gravity ecm;
     ExternalWorldWrenchCmd := <[e := w]> (ExternalWorldWrenchCmd ecm);
     AngularVelocityCmd := AngularVelocityCmd ecm;
     LinearVelocityCmd := LinearVelocityCmd ecm |}.

Definition set_AngularVelocityCmd (e : Entity) (v : math.Vector3d)
    (ecm : EntityComponentManager) : EntityComponentManager :=
  {| Entities := Entities ecm; ParentEntity := ParentEntity ecm;
     Name := Name ecm; Model := Model ecm; Link := Link ecm;
     Collision := Collision ecm; World := World ecm;
     CollisionElement := CollisionElement ecm; WorldPose := WorldPose ecm;
     Inertial := Inertial ecm; Gravity := Gravity ecm;
     ExternalWorldWrenchCmd := ExternalWorldWrenchCmd ecm;
     AngularVelocityCmd := <[e := v]> (AngularVelocityCmd ecm);
     LinearVelocityCmd := LinearVelocityCmd ecm |}.

Definition set_LinearVelocityCmd (e : Entity) (v : math.Vector3d)
    (ecm : EntityComponentManager) : EntityComponentManager :=
  {| Entities := Entities ecm; ParentEntity := ParentEntity ecm;
     Name := Name ecm; Model := Model ecm; Link := Link ecm;
     Collision := Collision ecm; World := World ecm;
     CollisionElement := CollisionElement ecm; WorldPose := WorldPose ecm;
     Inertial := Inertial ecm; Gravity := Gravity ecm;
     ExternalWorldWrenchCmd := ExternalWorldWrenchCmd ecm;
     AngularVelocityCmd := AngularVelocityCmd ecm;
     LinearVelocityCmd := <[e := v]> (LinearVelocityCmd ecm) |}.

End ecs.

(** ** Buoyancy.cc *)
Module Buoyancy.
Import ecs.

(** [BuoyancyPrivate::VolumeProperties] *)
Record VolumeProperties := { cov : math.Vector3d; volume : float }.

(** [VolumeProperties()]: [volume(0)] and a zero [Vector3d] *)
Definition VolumeProperties_default : VolumeProperties :=
  {| cov := math.Zero; volume := 0 |}.

(** [BuoyancyPrivate].  [gravity] is a pointer to the world's [Gravity]
    component inside the store: it is modelled as the entity whose
    component it points to, [None] being [nullptr]. *)
Record BuoyancyPrivate := {
  model : Entity;
  gravity : option Entity;
  fluidDensity : float;
  volPropsMap : gmap Z VolumeProperties
}.

(** [std::make_unique<BuoyancyPrivate>()] value-initialises the object:
    members without an initialiser ([gravity]) are zeroed. *)
Definition BuoyancyPrivate_init : BuoyancyPrivate :=
  {| model := kNullEntity; gravity := None; fluidDensity := 1000;
     volPropsMap := ∅ |}.

(** The plugin's configuration element *)
Record Sdf := { fluid_density : option float }.

(** The key of [std::map<int, VolumeProperties>] for an entity: the
    [uint64_t] identifier narrowed to a 32-bit [int]. *)
Definition to_int (e : Entity) : Z := (e + 2 ^ 31) mod 2 ^ 32 - 2 ^ 31.

(** [volPropsMap[key]]: the entry, created with the default constructor
    when absent *)
Definition at_key (m : gmap Z VolumeProperties) (k : Z) : VolumeProperties :=
  default VolumeProperties_default (m !! k).

Definition touch (m : gmap Z VolumeProperties) (k : Z) : gmap Z VolumeProperties :=
  match m !! k with
  | Some _ => m
  | None => <[k := VolumeProperties_default]> m
  end.

(** The [switch] over the geometry type of one collision *)
Definition shapeVolume (mm : MeshManager) (g : Geometry) : float :=
  match g with
  | BOX v => v
  | SPHERE v => v
  | CYLINDER v => v
  | PLANE => 0
  | MESH file =>
      if IsValidFilename mm file then
        match Load mm file with
        | Some v => v
        | None => 0
        end
      else 0
  | EMPTY | HEIGHTMAP => 0
  end.

(** One iteration of the loop over a link's collisions *)
Definition collisionStep (mm : MeshManager) (ecm : EntityComponentManager)
    (acc : float * math.Vector3d) (collision : Entity) : float * math.Vector3d :=
  match CollisionElement ecm !! collision with
  | None => acc
  | Some coll =>
      let volume := shapeVolume mm coll in
      let pose := worldPose collision ecm in
      ((acc.1 + volume)%float,
       math.add acc.2 (math.scale volume (math.Pos pose)))
  end.

(** One iteration of the loop over the model's links *)
Definition linkStep (mm : MeshManager) (ecm : EntityComponentManager)
    (m : gmap Z VolumeProperties) (link : Entity) : gmap Z VolumeProperties :=
  let collisions := ChildrenByComponents ecm link (Collision ecm) in
  let '(volumeSum, weightedPosSum) :=
    foldl (collisionStep mm ecm) (0%float, math.Zero) collisions in
  let pose := worldPose link ecm in
  let newcov := math.sub (math.div weightedPosSum volumeSum) (math.Pos pose) in
  let m1 := <[to_int link := {| cov := newcov;
                                volume := volume (at_key m (to_int link)) |}]> m in
  <[to_int link := {| cov := cov (at_key m1 (to_int link));
                      volume := volumeSum |}]> m1.

(** [Buoyancy::Configure] *)
Definition Configure (_entity : Entity) (_sdf : Sdf) (mm : MeshManager)
    (ecm : EntityComponentManager) (st : BuoyancyPrivate) : BuoyancyPrivate :=
  if negb (Valid ecm _entity) then
    {| model := _entity; gravity := gravity st;
       fluidDensity := fluidDensity st; volPropsMap := volPropsMap st |}
  else
    let density := default (fluidDensity st) (fluid_density _sdf) in
    let links := ChildrenByComponents ecm _entity (Link ecm) in
    let vpm := foldl (linkStep mm ecm) (volPropsMap st) links in
    let world := EntityByComponents ecm (World ecm) in
    if bool_decide (world = kNullEntity) then
      {| model := _entity; gravity := gravity st;
         fluidDensity := density; volPropsMap := vpm |}
    else
      {| model := _entity;
         gravity := match Gravity ecm !! world with
                    | Some _ => Some world
                    | None => None
                    end;
         fluidDensity := density; volPropsMap := vpm |}.

(** The wrench the loop body of [PreUpdate] builds for one link, from the
    cached properties [vp], gravity [g], the link's world pose and its
    inertial pose *)
Definition linkWrench (density : float) (vp : VolumeProperties)
    (g : math.Vector3d) (linkWorldPose inertial : math.Pose3d) : msgs.Wrench :=
  let buoyancy := math.scale (- density * volume vp)%float g in
  let offset := math.sub (cov vp) (math.Pos inertial) in
  let offsetWorld := math.RotateVector (math.Rot linkWorldPose) offset in
  let torque := math.Cross offsetWorld buoyancy in
  {| msgs.force := buoyancy; msgs.torque := torque |}.

(** One iteration of the loop of [PreUpdate].  [None] is undefined
    behaviour: the gravity pointer dangles, or the link has no [Inertial]
    component and the null pointer is dereferenced. *)
Definition preUpdateStep (world : Entity)
    (acc : option (BuoyancyPrivate * EntityComponentManager)) (link : Entity)
    : option (BuoyancyPrivate * EntityComponentManager) :=
  '(st, ecm) ← acc;
  let volumeProperties := at_key (volPropsMap st) (to_int link) in
  let st' := {| model := model st; gravity := gravity st;
                fluidDensity := fluidDensity st;
                volPropsMap := touch (volPropsMap st) (to_int link) |} in
  g ← Gravity ecm !! world;
  let linkWorldPose := worldPose link ecm in
  inertial ← Inertial ecm !! link;
  let wrench := linkWrench (fluidDensity st) volumeProperties g
                           linkWorldPose inertial in
  match ExternalWorldWrenchCmd ecm !! link with
  | Some _ => Some (st', set_ExternalWorldWrenchCmd link wrench ecm)
  | None => Some (st', set_ExternalWorldWrenchCmd link wrench ecm)
  end.

(** [Buoyancy::PreUpdate] (the diagnostic output is left out) *)
Definition PreUpdate (st : BuoyancyPrivate) (ecm : EntityComponentManager)
    : option (BuoyancyPrivate * EntityComponentManager) :=
  match gravity st with
  | None => Some (st, ecm)
  | Some world =>
      let links := ChildrenByComponents ecm (model st) (Link ecm) in
      foldl (preUpdateStep world) (Some (st, ecm)) links
  end.

(** A run of ticks: between two calls of [PreUpdate] the solver and the
    other systems change the store, so each tick is given the store it
    sees; the result is the plugin state after the last tick. *)
Fixpoint ticks (stores : list EntityComponentManager) (st : BuoyancyPrivate)
    : option BuoyancyPrivate :=
  match stores with
  | [] => Some st
  | ecm :: rest =>
      match PreUpdate st ecm with
      | Some (st', _) => ticks rest st'
      | None => None
      end
  end.

(** *** Notions used to state the properties of the system *)

(** What one tick reads: the density, the cache (through [operator[]]),
    and the gravity, inertial and pose components. *)
Definition same_inputs (st0 st : BuoyancyPrivate)
    (ecm0 ecm : EntityComponentManager) : Prop :=
  model st = model st0 ∧ gravity st = gravity st0 ∧
  fluidDensity st = fluidDensity st0 ∧
  (∀ k, at_key (volPropsMap st) k = at_key (volPropsMap st0) k) ∧
  Gravity ecm = Gravity ecm0 ∧ Inertial ecm = Inertial ecm0 ∧
  WorldPose ecm = WorldPose ecm0.

(** The wrench of link [l] as a function of the state and store at the
    start of the tick *)
Definition tickWrench (st0 : BuoyancyPrivate) (ecm0 : EntityComponentManager)
    (g : math.Vector3d) (l : Entity) : msgs.Wrench :=
  linkWrench (fluidDensity st0) (at_key (volPropsMap st0) (to_int l)) g
             (worldPose l ecm0)
             (default math.Pose3d_default (Inertial ecm0 !! l)).

(** The preconditions of a tick: the gravity component the engine points
    to is still there, and every link of the model has inertial data. *)
Definition ready (st : BuoyancyPrivate) (ecm : EntityComponentManager) : Prop :=
  ∀ world, gravity st = Some world →
    is_Some (Gravity ecm !! world) ∧
    ∀ l, l ∈ ChildrenByComponents ecm (model st) (Link ecm) →
         is_Some (Inertial ecm !! l).

(** A small scene: a world, a model with one link, one collision *)

Definition g_earth : math.Vector3d := math.Vector3 0 0 (-9.8).

(** World 1, model 2, link 3 at height [z], collision 4 with geometry
    [geom] at the same place; [grav] is the world's gravity component. *)
Definition scene (geom : Geometry) (z : float)
    (grav : gmap Entity math.Vector3d) : EntityComponentManager :=
  {| Entities := [1; 2; 3; 4];
     ParentEntity := <[2 := 1]> (<[3 := 2]> (<[4 := 3]> ∅));
     Name := <[2 := "boat"%string]> (<[3 := "hull"%string]> ∅);
     Model := {[2]}; Link := {[3]}; Collision := {[4]}; World := {[1]};
     CollisionElement := {[4 := geom]};
     WorldPose := <[3 := math.Pose3 (math.Vector3 0 0 z) math.Identity]>
                    (<[4 := math.Pose3 (math.Vector3 0 0 z) math.Identity]> ∅);
     Inertial := {[3 := math.Pose3d_default]};
     Gravity := grav;
     ExternalWorldWrenchCmd := ∅;
     AngularVelocityCmd := ∅;
     LinearVelocityCmd := ∅ |}.

Definition no_meshes : MeshManager :=
  {| IsValidFilename := λ _, false; Load := λ _, None |}.

Definition configured (ecm : EntityComponentManager) : BuoyancyPrivate :=
  Configure 2 {| fluid_density := None |} no_meshes ecm BuoyancyPrivate_init.

(** A float that is [+0], [-0] or NaN; a vector of such components *)
Definition zero_or_nan (f : float) : bool := is_zero f || is_nan f.

Definition vzero_or_nan (v : math.Vector3d) : bool :=
  zero_or_nan (math.vX v) && zero_or_nan (math.vY v) && zero_or_nan (math.vZ v).

(** The store [ecm] with its wrench components replaced by [w] *)
Definition with_ExternalWorldWrenchCmd (w : gmap Entity msgs.Wrench)
    (ecm : EntityComponentManager) : EntityComponentManager :=
  {| Entities := Entities ecm; ParentEntity := ParentEntity ecm;
     Name := Name ecm; Model := Model ecm; Link := Link ecm;
     Collision := Collision ecm; World := World ecm;
     CollisionElement := CollisionElement ecm; WorldPose := WorldPose ecm;
     Inertial := Inertial ecm; Gravity := Gravity ecm;
     ExternalWorldWrenchCmd := w;
     AngularVelocityCmd := AngularVelocityCmd ecm;
     LinearVelocityCmd := LinearVelocityCmd ecm |}.

(** The plugin state [st] with its volume cache replaced by [m] *)
Definition with_volPropsMap (m : gmap Z VolumeProperties)
    (st : BuoyancyPrivate) : BuoyancyPrivate :=
  {| model := model st; gravity := gravity st;
     fluidDensity := fluidDensity st; volPropsMap := m |}.

(** The volume properties [Configure] computes for one link: the sum of
    the volumes of its collisions, and the volume-weighted mean of their
    world positions minus the link's world position *)
Definition linkProperties (mm : MeshManager) (ecm : EntityComponentManager)
    (link : Entity) : VolumeProperties :=
  let sums := foldl (collisionStep mm ecm) (0%float, math.Zero)
                    (ChildrenByComponents ecm link (Collision ecm)) in
  {| cov := math.sub (math.div sums.2 sums.1) (math.Pos (worldPose link ecm));
     volume := sums.1 |}.

End Buoyancy.

(** ** VelocityControl.cc *)
Module VelocityControl.
Import ecs.

(** [UpdateInfo]: [dt] in nanoseconds (the representation of
    [steady_clock::duration]) and the paused flag *)
Record UpdateInfo := { dt : Z; paused : bool }.

(** [transport::MessageInfo]: the channel a message came on *)
Record MessageInfo := { Topic : string }.

(** The two member functions a channel can be subscribed with *)
Inductive Callback := CbOnCmdVel | CbOnLinkCmdVel.

(** What the system writes to the console *)
Inductive LogMsg :=
| ErrNotAModel
| MsgSubscribing (topic : string)
| WarnJumpBack (seconds : Z)
| WarnFailedToFindLink (linkName modelName : string)
| WarnNoAngularVelocity (linkName : string)
| WarnNoLinearVelocity (linkName : string).

(** [VelocityControlPrivate]; [node] is the list of subscriptions the
    transport node holds.  The mutex is not modelled: callbacks and
    updates are taken one at a time. *)
Record VelocityControlPrivate := {
  node : list (string * Callback);
  model : Entity;
  angularVelocity : math.Vector3d;
  linearVelocity : math.Vector3d;
  targetVel : msgs.Twist;
  linkNames : list string;
  links : gmap string Entity;
  angularVelocities : gmap string math.Vector3d;
  linearVelocities : gmap string math.Vector3d;
  linkVels : gmap string msgs.Twist
}.

(** [std::make_unique<VelocityControlPrivate>()] *)
Definition VelocityControlPrivate_init : VelocityControlPrivate :=
  {| node := []; model := kNullEntity;
     angularVelocity := math.Zero; linearVelocity := math.Zero;
     targetVel := msgs.Twist_default; linkNames := [];
     links := ∅; angularVelocities := ∅; linearVelocities := ∅;
     linkVels := ∅ |}.

(** The plugin's configuration element: an optional [<topic>] and the
    [<link_name>] elements in document order *)
Record Sdf := { topic : option string; link_name : list string }.

(** [std::map::insert]: an existing entry is kept *)
Definition map_insert {A} (k : string) (v : A) (m : gmap string A) : gmap string A :=
  match m !! k with
  | Some _ => m
  | None => <[k := v]> m
  end.

(** Iterating over a [std::map<std::string, _>] visits the entries in the
    order of their keys. *)
Definition key_le {A} (a b : string * A) : Prop := String.leb a.1 b.1 = true.

#[global] Instance key_le_dec {A} (a b : string * A) : Decision (key_le a b) :=
  bool_eq_dec (String.leb a.1 b.1) true.

Definition items {A} (m : gmap string A) : list (string * A) :=
  merge_sort key_le (map_to_list m).

(** [std::string::find(pat)]: the first position where [pat] occurs,
    [None] for [npos] *)
Fixpoint find (s pat : string) : option nat :=
  if String.prefix pat s then Some 0%nat
  else match s with
       | EmptyString => None
       | String _ s' => S <$> find s' pat
       end.

(** Field updates *)
Definition with_model (e : Entity) (st : VelocityControlPrivate) :=
  {| node := node st; model := e;
     angularVelocity := angularVelocity st; linearVelocity := linearVelocity st;
     targetVel := targetVel st; linkNames := linkNames st; links := links st;
     angularVelocities := angularVelocities st;
     linearVelocities := linearVelocities st; linkVels := linkVels st |}.

Definition Subscribe (t : string) (cb : Callback) (st : VelocityControlPrivate) :=
  {| node := node st ++ [(t, cb)]; model := model st;
     angularVelocity := angularVelocity st; linearVelocity := linearVelocity st;
     targetVel := targetVel st; linkNames := linkNames st; links := links st;
     angularVelocities := angularVelocities st;
     linearVelocities := linearVelocities st; linkVels := linkVels st |}.

Definition push_linkName (n : string) (st : VelocityControlPrivate) :=
  {| node := node st; model := model st;
     angularVelocity := angularVelocity st; linearVelocity := linearVelocity st;
     targetVel := targetVel st; linkNames := linkNames st ++ [n];
     links := links st; angularVelocities := angularVelocities st;
     linearVelocities := linearVelocities st; linkVels := linkVels st |}.

Definition with_links (l : gmap string Entity) (st : VelocityControlPrivate) :=
  {| node := node st; model := model st;
     angularVelocity := angularVelocity st; linearVelocity := linearVelocity st;
     targetVel := targetVel st; linkNames := linkNames st; links := l;
     angularVelocities := angularVelocities st;
     linearVelocities := linearVelocities st; linkVels := linkVels st |}.

Definition with_linkVels (l : gmap string msgs.Twist) (st : VelocityControlPrivate) :=
  {| node := node st; model := model st;
     angularVelocity := angularVelocity st; linearVelocity := linearVelocity st;
     targetVel := targetVel st; linkNames := linkNames st; links := links st;
     angularVelocities := angularVelocities st;
     linearVelocities := linearVelocities st; linkVels := l |}.

(** [VelocityControl::Configure] *)
Definition Configure (_entity : Entity) (_sdf : Sdf)
    (ecm : EntityComponentManager) (st : VelocityControlPrivate)
    : VelocityControlPrivate * list LogMsg :=
  let st := with_model _entity st in
  if negb (Valid ecm (model st)) then (st, [ErrNotAModel])
  else
    let modelTopic :=
      default ("/model/" ++ ModelName ecm (model st) ++ "/cmd_vel")%string
              (topic _sdf) in
    let st := Subscribe modelTopic CbOnCmdVel st in
    let log := [MsgSubscribing modelTopic] in
    match link_name _sdf with
    | [] => (st, log)
    | _ =>
        let st := foldl (λ st n, push_linkName n st) st (link_name _sdf) in
        foldl (λ '(st, log) linkName,
                 let linkTopic :=
                   ("/model/" ++ ModelName ecm (model st) ++ "/link/"
                      ++ linkName ++ "/cmd_vel")%string in
                 (Subscribe linkTopic CbOnLinkCmdVel st,
                  log ++ [MsgSubscribing linkTopic]))
              (st, log) (linkNames st)
    end.

(** [VelocityControlPrivate::OnCmdVel] *)
Definition OnCmdVel (_msg : msgs.Twist) (st : VelocityControlPrivate) :=
  {| node := node st; model := model st;
     angularVelocity := angularVelocity st; linearVelocity := linearVelocity st;
     targetVel := _msg; linkNames := linkNames st; links := links st;
     angularVelocities := angularVelocities st;
     linearVelocities := linearVelocities st; linkVels := linkVels st |}.

(** [VelocityControlPrivate::OnLinkCmdVel] *)
Definition OnLinkCmdVel (_msg : msgs.Twist) (_info : MessageInfo)
    (st : VelocityControlPrivate) : VelocityControlPrivate :=
  with_linkVels
    (foldl (λ lv linkName,
              match find (Topic _info) linkName with
              | Some _ => map_insert linkName _msg lv
              | None => lv
              end)
           (linkVels st) (linkNames st))
    st.

(** [VelocityControlPrivate::UpdateVelocity] *)
Definition UpdateVelocity (st : VelocityControlPrivate) : VelocityControlPrivate :=
  let linVel := math.vX (msgs.linear (targetVel st)) in
  let angVel := math.vZ (msgs.angular (targetVel st)) in
  {| node := node st; model := model st;
     angularVelocity :=
       math.Vector3 (math.vX (msgs.angular (targetVel st)))
                    (math.vY (msgs.angular (targetVel st))) angVel;
     linearVelocity :=
       math.Vector3 linVel (math.vY (msgs.linear (targetVel st)))
                    (math.vZ (msgs.linear (targetVel st)));
     targetVel := targetVel st; linkNames := linkNames st; links := links st;
     angularVelocities := angularVelocities st;
     linearVelocities := linearVelocities st; linkVels := linkVels st |}.

(** One iteration of the loop of [UpdateLinkVelocity], on the pair of the
    linear and the angular map *)
Definition updateLinkStep
    (acc : gmap string math.Vector3d * gmap string math.Vector3d)
    (item : string * msgs.Twist)
    : gmap string math.Vector3d * gmap string math.Vector3d :=
  let msg := item.2 in
  let linearVel := math.Vector3 (math.vX (msgs.linear msg))
                     (math.vY (msgs.linear msg)) (math.vZ (msgs.linear msg)) in
  let angularVel := math.Vector3 (math.vX (msgs.angular msg))
                      (math.vY (msgs.angular msg)) (math.vZ (msgs.angular msg)) in
  (map_insert item.1 linearVel acc.1, map_insert item.1 angularVel acc.2).

(** [VelocityControlPrivate::UpdateLinkVelocity] *)
Definition UpdateLinkVelocity (st : VelocityControlPrivate) : VelocityControlPrivate :=
  let r := foldl updateLinkStep (linearVelocities st, angularVelocities st)
                 (items (linkVels st)) in
  {| node := node st; model := model st;
     angularVelocity := angularVelocity st; linearVelocity := linearVelocity st;
     targetVel := targetVel st; linkNames := linkNames st; links := links st;
     angularVelocities := r.2; linearVelocities := r.1;
     linkVels := linkVels st |}.

(** [VelocityControl::PostUpdate] *)
Definition PostUpdate (_info : UpdateInfo) (ecm : EntityComponentManager)
    (st : VelocityControlPrivate) : VelocityControlPrivate :=
  if paused _info then st
  else UpdateLinkVelocity (UpdateVelocity st).

(** The warning of [PreUpdate] on a backward time step;
    [duration_cast<seconds>] truncates towards zero. *)
Definition jumpBackWarning (_info : UpdateInfo) : list LogMsg :=
  if bool_decide (dt _info < 0) then [WarnJumpBack (dt _info ÷ 1000000000)]
  else [].

(** Writing a velocity command of an entity: [CreateComponent] when the
    entity has none, assignment through the component pointer otherwise *)
Definition writeAngularVelocityCmd (e : Entity) (v : math.Vector3d)
    (ecm : EntityComponentManager) : EntityComponentManager :=
  match AngularVelocityCmd ecm !! e with
  | None => set_AngularVelocityCmd e v ecm
  | Some _ => set_AngularVelocityCmd e v ecm
  end.

Definition writeLinearVelocityCmd (e : Entity) (v : math.Vector3d)
    (ecm : EntityComponentManager) : EntityComponentManager :=
  match LinearVelocityCmd ecm !! e with
  | None => set_LinearVelocityCmd e v ecm
  | Some _ => set_LinearVelocityCmd e v ecm
  end.

(** One iteration of the loop of [PreUpdate] that resolves link names *)
Definition resolveStep (ecm : EntityComponentManager) (mdl : Entity)
    (modelName : string) (acc : gmap string Entity * list LogMsg)
    (linkName : string) : gmap string Entity * list LogMsg :=
  match acc.1 !! linkName with
  | Some _ => acc
  | None =>
      let link := LinkByName ecm mdl linkName in
      if bool_decide (link ≠ kNullEntity) then (map_insert linkName link acc.1, acc.2)
      else (acc.1, acc.2 ++ [WarnFailedToFindLink linkName modelName])
  end.

(** One iteration of the loop of [PreUpdate] over the resolved links *)
Definition linkWriteStep (st : VelocityControlPrivate)
    (acc : EntityComponentManager * list LogMsg) (item : string * Entity)
    : EntityComponentManager * list LogMsg :=
  let linkName := item.1 in
  let link := item.2 in
  let acc1 :=
    match angularVelocities st !! linkName with
    | Some v => (writeAngularVelocityCmd link v acc.1, acc.2)
    | None => (acc.1, acc.2 ++ [WarnNoAngularVelocity linkName])
    end in
  match linearVelocities st !! linkName with
  | Some v => (writeLinearVelocityCmd link v acc1.1, acc1.2)
  | None => (acc1.1, acc1.2 ++ [WarnNoLinearVelocity linkName])
  end.

(** [VelocityControl::PreUpdate]: the new plugin state, the new store and
    the console output *)
Definition PreUpdate (_info : UpdateInfo) (ecm : EntityComponentManager)
    (st : VelocityControlPrivate)
    : VelocityControlPrivate * EntityComponentManager * list LogMsg :=
  let log := jumpBackWarning _info in
  if paused _info then (st, ecm, log)
  else
    let ecm := writeAngularVelocityCmd (model st) (angularVelocity st) ecm in
    let ecm := writeLinearVelocityCmd (model st) (linearVelocity st) ecm in
    let modelName := ModelName ecm (model st) in
    match linkNames st with
    | [] => (st, ecm, log)
    | _ =>
        let r := foldl (resolveStep ecm (model st) modelName)
                       (links st, log) (linkNames st) in
        let st := with_links r.1 st in
        if bool_decide (links st = ∅) then (st, ecm, r.2)
        else
          let w := foldl (linkWriteStep st) (ecm, r.2) (items (links st)) in
          (st, w.1, w.2)
    end.

(** Modelled from the spec: "a named publish/subscribe channel".  The
    transport library is not part of the repository: a message published
    on a channel is handed to every callback subscribed to that channel. *)
Definition deliver (channel : string) (msg : msgs.Twist)
    (st : VelocityControlPrivate) : VelocityControlPrivate :=
  foldl (λ st sub,
           if bool_decide (sub.1 = channel) then
             match sub.2 with
             | CbOnCmdVel => OnCmdVel msg st
             | CbOnLinkCmdVel => OnLinkCmdVel msg {| Topic := channel |} st
             end
           else st)
        st (node st).

(** What happens to the plugin after [Configure]: callbacks and ticks, in
    any order.  A [PreUpdate] carries the store it is run on. *)
Inductive event :=
| EvCmdVel (msg : msgs.Twist)
| EvLinkCmdVel (msg : msgs.Twist) (info : MessageInfo)
| EvPreUpdate (info : UpdateInfo) (ecm : EntityComponentManager)
| EvPostUpdate (info : UpdateInfo) (ecm : EntityComponentManager).

Definition step (st : VelocityControlPrivate) (ev : event) : VelocityControlPrivate :=
  match ev with
  | EvCmdVel msg => OnCmdVel msg st
  | EvLinkCmdVel msg info => OnLinkCmdVel msg info st
  | EvPreUpdate info ecm => (PreUpdate info ecm st).1.1
  | EvPostUpdate info ecm => PostUpdate info ecm st
  end.

Definition run (evs : list event) (st : VelocityControlPrivate) : VelocityControlPrivate :=
  foldl step st evs.

(** *** Notions used to state the properties of the system *)

Definition vec (v : math.Vector3d) : math.Vector3d :=
  math.Vector3 (math.vX v) (math.vY v) (math.vZ v).

(** The store after the two writes at the model entity *)
Definition afterModelWrites (st : VelocityControlPrivate)
    (ecm : EntityComponentManager) : EntityComponentManager :=
  writeLinearVelocityCmd (model st) (linearVelocity st)
    (writeAngularVelocityCmd (model st) (angularVelocity st) ecm).

(** The binding of name [n] after the resolution loop has run over
    [names], starting from the bindings [lks] *)
Definition resolution (ecm : EntityComponentManager) (mdl : Entity)
    (names : list string) (lks : gmap string Entity) (n : string)
    : option Entity :=
  match lks !! n with
  | Some e => Some e
  | None =>
      if decide (n ∈ names) then
        if decide (LinkByName ecm mdl n = kNullEntity) then None
        else Some (LinkByName ecm mdl n)
      else None
  end.

(** No resolved link is the model entity itself, and the model is not its
    own parent (so no lookup can return it). *)
Definition model_not_a_link (st : VelocityControlPrivate)
    (ecm : EntityComponentManager) : Prop :=
  (∀ n e, links st !! n = Some e → e ≠ model st) ∧
  ParentEntity ecm !! model st ≠ Some (model st).

(** The per-link targets are only ever derived from the buffered
    message of the same link. *)
Definition derived_from_buffer (st : VelocityControlPrivate) : Prop :=
  ∀ n,
    (∀ v, linearVelocities st !! n = Some v →
          ∃ m, linkVels st !! n = Some m ∧ v = msgs.linear m) ∧
    (∀ v, angularVelocities st !! n = Some v →
          ∃ m, linkVels st !! n = Some m ∧ v = msgs.angular m).

(** A small scene: a model "m" with the links "arm" and "arm_extra" *)

Definition robot : EntityComponentManager :=
  {| Entities := [1; 2; 3; 4];
     ParentEntity := <[2 := 1]> (<[3 := 2]> (<[4 := 2]> ∅));
     Name := <[2 := "m"%string]>
               (<[3 := "arm"%string]> (<[4 := "arm_extra"%string]> ∅));
     Model := {[2]}; Link := {[3; 4]}; Collision := ∅; World := {[1]};
     CollisionElement := ∅; WorldPose := ∅; Inertial := ∅; Gravity := ∅;
     ExternalWorldWrenchCmd := ∅;
     AngularVelocityCmd := ∅;
     LinearVelocityCmd := ∅ |}.

Definition twist (lx az : float) : msgs.Twist :=
  {| msgs.linear := math.Vector3 lx 0 0; msgs.angular := math.Vector3 0 0 az |}.

Definition unpaused : UpdateInfo := {| dt := 1000000; paused := false |}.

(** The plugin configured on the robot with the given link names *)
Definition configured (names : list string) : VelocityControlPrivate :=
  (Configure 2 {| topic := None; link_name := names |} robot
             VelocityControlPrivate_init).1.

(** [pat] occurs somewhere in [s] *)
Definition occurs (pat s : string) : Prop :=
  ∃ pre post, s = (pre ++ pat ++ post)%string.

(** The channel names [Configure] subscribes to *)
Definition modelTopic (_sdf : Sdf) (ecm : EntityComponentManager)
    (e : Entity) : string :=
  default ("/model/" ++ ModelName ecm e ++ "/cmd_vel")%string (topic _sdf).

Definition linkTopic (ecm : EntityComponentManager) (e : Entity)
    (linkName : string) : string :=
  ("/model/" ++ ModelName ecm e ++ "/link/" ++ linkName ++ "/cmd_vel")%string.

(** The most recent model-level message of a run, [m0] when the run has
    none *)
Definition lastCmdVel (m0 : msgs.Twist) (evs : list event) : msgs.Twist :=
  foldl (λ m ev, match ev with EvCmdVel msg => msg | _ => m end) m0 evs.

(** One step of [deliver] *)
Definition deliverStep (channel : string) (msg : msgs.Twist)
    (st : VelocityControlPrivate) (sub : string * Callback)
    : VelocityControlPrivate :=
  if bool_decide (sub.1 = channel) then
    match sub.2 with
    | CbOnCmdVel => OnCmdVel msg st
    | CbOnLinkCmdVel => OnLinkCmdVel msg {| Topic := channel |} st
    end
  else st.

(** The store [ecm] with its two velocity-command components replaced *)
Definition with_VelocityCmds (a l : gmap Entity math.Vector3d)
    (ecm : EntityComponentManager) : EntityComponentManager :=
  {| Entities := Entities ecm; ParentEntity := ParentEntity ecm;
     Name := Name ecm; Model := Model ecm; Link := Link ecm;
     Collision := Collision ecm; World := World ecm;
     CollisionElement := CollisionElement ecm; WorldPose := WorldPose ecm;
     Inertial := Inertial ecm; Gravity := Gravity ecm;
     ExternalWorldWrenchCmd := ExternalWorldWrenchCmd ecm;
     AngularVelocityCmd := a;
     LinearVelocityCmd := l |}.

End VelocityControl.

(** ** Facts about Buoyancy.cc *)
Module BuoyancyFacts.
Import ecs Buoyancy.

(** *** [operator[]] on the volume cache *)

Lemma at_key_touch (m : gmap Z VolumeProperties) (k k' : Z) :
  at_key (touch m k) k' = at_key m k'.
Proof.
  unfold at_key, touch. destruct (m !! k) eqn:Hk; [done|].
  destruct (decide (k = k')) as [->|Hne].
  - by rewrite lookup_insert_eq, Hk.
  - by rewrite lookup_insert_ne.
Qed.

Lemma touch_lookup_Some (m : gmap Z VolumeProperties) (k k' : Z) vp :
  m !! k' = Some vp → touch m k !! k' = Some vp.
Proof.
  intros Hk'. unfold touch. destruct (m !! k) eqn:Hk; [done|].
  rewrite lookup_insert_ne; [done|]. intros ->. congruence.
Qed.

(** *** The loop of [PreUpdate] *)

Lemma preUpdate_loop_None world links :
  foldl (preUpdateStep world) None links = None.
Proof. induction links as [|l links IH]; [done|]. exact IH. Qed.

Lemma same_inputs_refl st ecm : same_inputs st st ecm ecm.
Proof. by repeat split. Qed.

Lemma preUpdateStep_ok st0 ecm0 world g st ecm l :
  same_inputs st0 st ecm0 ecm →
  Gravity ecm0 !! world = Some g →
  is_Some (Inertial ecm0 !! l) →
  ∃ st' ecm',
    preUpdateStep world (Some (st, ecm)) l = Some (st', ecm') ∧
    same_inputs st0 st' ecm0 ecm' ∧
    ExternalWorldWrenchCmd ecm' =
      <[l := tickWrench st0 ecm0 g l]> (ExternalWorldWrenchCmd ecm) ∧
    (∀ k vp, volPropsMap st !! k = Some vp → volPropsMap st' !! k = Some vp).
Proof.
  intros (Hm & Hg & Hd & Hk & HG & HI & HW) Hgrav [inertial Hin].
  unfold preUpdateStep; simpl.
  rewrite HG, Hgrav, HI, Hin; simpl.
  eexists _, _. split.
  { destruct (ExternalWorldWrenchCmd ecm !! l); reflexivity. }
  split; [|split].
  - repeat split; simpl; try done.
    intros k. by rewrite at_key_touch.
  - simpl. unfold tickWrench, worldPose. by rewrite Hd, Hk, HW, Hin.
  - simpl. intros k vp. apply touch_lookup_Some.
Qed.

Lemma preUpdate_loop_ok st0 ecm0 world g links :
  Gravity ecm0 !! world = Some g →
  (∀ l, l ∈ links → is_Some (Inertial ecm0 !! l)) →
  ∀ st ecm, same_inputs st0 st ecm0 ecm →
  ∃ st' ecm',
    foldl (preUpdateStep world) (Some (st, ecm)) links = Some (st', ecm') ∧
    same_inputs st0 st' ecm0 ecm' ∧
    (∀ l, ExternalWorldWrenchCmd ecm' !! l =
          if decide (l ∈ links) then Some (tickWrench st0 ecm0 g l)
          else ExternalWorldWrenchCmd ecm !! l) ∧
    (∀ k vp, volPropsMap st !! k = Some vp → volPropsMap st' !! k = Some vp).
Proof.
  intros Hgrav. induction links as [|l links IH]; intros Hin st ecm Hsame.
  - exists st, ecm. repeat split; try apply Hsame; done.
  - destruct (preUpdateStep_ok st0 ecm0 world g st ecm l Hsame Hgrav)
      as (st1 & ecm1 & Hstep & Hsame1 & Hw1 & Hv1).
    { apply Hin. left. }
    destruct (IH (λ l' Hl', Hin l' (list_elem_of_further _ _ _ Hl')) st1 ecm1 Hsame1)
      as (st' & ecm' & Hfold & Hsame' & Hw' & Hv').
    exists st', ecm'. split; [|split; [done|split]].
    + change (foldl (preUpdateStep world) (Some (st, ecm)) (l :: links))
        with (foldl (preUpdateStep world)
                    (preUpdateStep world (Some (st, ecm)) l) links).
      by rewrite Hstep.
    + intros l'. rewrite Hw', Hw1.
      destruct (decide (l' ∈ links)) as [Hl'|Hl'].
      * rewrite decide_True; [done|]. by right.
      * destruct (decide (l = l')) as [->|Hne].
        -- rewrite lookup_insert_eq. rewrite decide_True; [done|]. left.
        -- rewrite lookup_insert_ne by done.
           rewrite decide_False; [done|].
           intros [?|?]%elem_of_cons; congruence.
    + intros k vp Hk. by apply Hv', Hv1.
Qed.

(** The loop never changes an entry the cache already holds, whether or
    not it runs to its end. *)
Lemma preUpdate_loop_cache world links :
  ∀ st ecm st' ecm',
    foldl (preUpdateStep world) (Some (st, ecm)) links = Some (st', ecm') →
    model st' = model st ∧ gravity st' = gravity st ∧
    fluidDensity st' = fluidDensity st ∧
    ∀ k vp, volPropsMap st !! k = Some vp → volPropsMap st' !! k = Some vp.
Proof.
  induction links as [|l links IH]; intros st ecm st' ecm' Hfold.
  - simpl in Hfold. by simplify_eq.
  - change (foldl (preUpdateStep world) (Some (st, ecm)) (l :: links))
      with (foldl (preUpdateStep world)
                  (preUpdateStep world (Some (st, ecm)) l) links) in Hfold.
    destruct (preUpdateStep world (Some (st, ecm)) l) as [[st1 ecm1]|] eqn:Hstep;
      [|by rewrite preUpdate_loop_None in Hfold].
    apply IH in Hfold as (Hm & Hg & Hd & Hv).
    unfold preUpdateStep in Hstep; simpl in Hstep.
    destruct (Gravity ecm !! world); simpl in Hstep; [|done].
    destruct (Inertial ecm !! l); simpl in Hstep; [|done].
    assert (st1 = {| model := model st; gravity := gravity st;
                     fluidDensity := fluidDensity st;
                     volPropsMap := touch (volPropsMap st) (to_int l) |}) as ->.
    { destruct (ExternalWorldWrenchCmd ecm !! l); by simplify_eq. }
    simpl in *. repeat split; try done.
    intros k vp Hk. by apply Hv, touch_lookup_Some.
Qed.

Lemma PreUpdate_cache st ecm st' ecm' :
  PreUpdate st ecm = Some (st', ecm') →
  model st' = model st ∧ gravity st' = gravity st ∧
  fluidDensity st' = fluidDensity st ∧
  ∀ k vp, volPropsMap st !! k = Some vp → volPropsMap st' !! k = Some vp.
Proof.
  unfold PreUpdate. intros H. destruct (gravity st) as [world|] eqn:Hg.
  - apply preUpdate_loop_cache in H. by rewrite Hg in H.
  - by simplify_eq.
Qed.

Lemma PreUpdate_total st ecm :
  ready st ecm → ∃ st' ecm', PreUpdate st ecm = Some (st', ecm').
Proof.
  intros Hready. unfold PreUpdate.
  destruct (gravity st) as [world|] eqn:Hg; [|by eauto].
  destruct (Hready world Hg) as [[g Hgrav] Hin].
  destruct (preUpdate_loop_ok st ecm world g _ Hgrav Hin st ecm
              (same_inputs_refl _ _)) as (st' & ecm' & Hfold & _).
  eauto.
Qed.

Lemma ready_same st st' ecm :
  model st' = model st → gravity st' = gravity st → ready st ecm → ready st' ecm.
Proof. unfold ready. intros -> ->. done. Qed.

Lemma ticks_cache stores :
  ∀ st st', ticks stores st = Some st' →
    model st' = model st ∧ gravity st' = gravity st ∧
    fluidDensity st' = fluidDensity st ∧
    ∀ k vp, volPropsMap st !! k = Some vp → volPropsMap st' !! k = Some vp.
Proof.
  induction stores as [|ecm stores IH]; intros st st' Hrun; simpl in Hrun.
  - by simplify_eq.
  - destruct (PreUpdate st ecm) as [[st1 ecm1]|] eqn:Hpre; [|done].
    apply PreUpdate_cache in Hpre as (Hm & Hg & Hd & Hv).
    apply IH in Hrun as (Hm' & Hg' & Hd' & Hv').
    repeat split; try congruence. intros k vp Hk. by apply Hv', Hv.
Qed.

Lemma ticks_total stores :
  ∀ st, Forall (ready st) stores → ∃ st', ticks stores st = Some st'.
Proof.
  induction stores as [|ecm stores IH]; intros st Hready; simpl; [by eauto|].
  apply Forall_cons in Hready as [Hecm Hrest].
  destruct (PreUpdate_total st ecm Hecm) as (st1 & ecm1 & Hpre).
  rewrite Hpre. apply IH.
  apply PreUpdate_cache in Hpre as (Hm & Hg & _).
  eapply Forall_impl; [exact Hrest|]. intros e. by apply ready_same.
Qed.

(** *** Main results *)

(** C1 (the code at a body of zero volume).  A link whose only collision
    is a plane has total volume 0.  [Configure] divides the weighted
    position sum by that volume without a guard, so the cached
    centre-of-volume offset is NaN; the next tick writes a wrench whose
    force is zero and whose torque is NaN in every component. *)
Theorem C1_zero_volume_writes_nan_torque :
  let ecm := scene PLANE 1 {[1 := g_earth]} in
  let st := configured ecm in
  volume <$> volPropsMap st !! to_int 3 = Some 0%float ∧
  math.vnan ∘ cov <$> volPropsMap st !! to_int 3 = Some true ∧
  ∃ st' ecm' w,
    PreUpdate st ecm = Some (st', ecm') ∧
    ExternalWorldWrenchCmd ecm' !! 3 = Some w ∧
    math.vzero (msgs.force w) = true ∧
    math.vnan (msgs.torque w) = true.
Proof.
  split; [vm_compute; reflexivity|].
  split; [vm_compute; reflexivity|].
  eexists _, _, _. split; [vm_compute; reflexivity|].
  split; [vm_compute; reflexivity|].
  split; vm_compute; reflexivity.
Qed.

(** C3.  Once gravity is resolved and every link of the model has
    inertial data, a tick returns, and for every link of the model with
    cached volume properties [vp] it leaves in the link's wrench slot
    exactly force = -fluidDensity * volume * gravity and torque =
    cross(rotate(cov - inertial position, current world orientation),
    force). *)
Theorem C3_wrench_written st ecm world g link vp inertial :
  gravity st = Some world →
  Gravity ecm !! world = Some g →
  (∀ l, l ∈ ChildrenByComponents ecm (model st) (Link ecm) →
        is_Some (Inertial ecm !! l)) →
  link ∈ ChildrenByComponents ecm (model st) (Link ecm) →
  volPropsMap st !! to_int link = Some vp →
  Inertial ecm !! link = Some inertial →
  ∃ st' ecm',
    PreUpdate st ecm = Some (st', ecm') ∧
    let force := math.scale (- fluidDensity st * volume vp)%float g in
    let torque :=
      math.Cross
        (math.RotateVector (math.Rot (worldPose link ecm))
                           (math.sub (cov vp) (math.Pos inertial)))
        force in
    ExternalWorldWrenchCmd ecm' !! link =
      Some {| msgs.force := force; msgs.torque := torque |}.
Proof.
  intros Hg Hgrav Hin Hlink Hvp Hinertial.
  destruct (preUpdate_loop_ok st ecm world g _ Hgrav Hin st ecm
              (same_inputs_refl _ _)) as (st' & ecm' & Hfold & _ & Hw & _).
  exists st', ecm'. split.
  - unfold PreUpdate. by rewrite Hg.
  - simpl. rewrite Hw, decide_True by done.
    unfold tickWrench, linkWrench, at_key. by rewrite Hvp, Hinertial.
Qed.

Lemma C3_wrench_written_witness :
  (∃ st' ecm',
     PreUpdate (configured (scene (BOX 2) 1 {[1 := g_earth]}))
               (scene (BOX 2) 5 {[1 := g_earth]}) = Some (st', ecm') ∧
     ExternalWorldWrenchCmd ecm' !! 3 =
       Some {| msgs.force :=
                 math.scale (- 1000 * 2)%float g_earth;
               msgs.torque :=
                 math.Cross
                   (math.RotateVector math.Identity
                                      (math.sub math.Zero math.Zero))
                   (math.scale (- 1000 * 2)%float g_earth) |}) ∧
  math.scale (- 1000 * 2)%float g_earth = math.Vector3 (-0) (-0) 19600 ∧
  math.vzero
    (math.Cross
       (math.RotateVector math.Identity (math.sub math.Zero math.Zero))
       (math.scale (- 1000 * 2)%float g_earth)) = true.
Proof.
  split; [|split; vm_compute; reflexivity].
  apply (C3_wrench_written
           (configured (scene (BOX 2) 1 {[1 := g_earth]}))
           (scene (BOX 2) 5 {[1 := g_earth]}) 1 g_earth 3
           {| cov := math.Zero; volume := 2 |} math.Pose3d_default).
  - vm_compute; reflexivity.
  - vm_compute; reflexivity.
  - intros l Hl.
    assert (ChildrenByComponents (scene (BOX 2) 5 {[1 := g_earth]})
              (model (configured (scene (BOX 2) 1 {[1 := g_earth]})))
              (Link (scene (BOX 2) 5 {[1 := g_earth]})) = [3]) as Heq
      by (vm_compute; reflexivity).
    rewrite Heq in Hl. apply list_elem_of_singleton in Hl as ->.
    exists math.Pose3d_default. vm_compute; reflexivity.
  - assert (ChildrenByComponents (scene (BOX 2) 5 {[1 := g_earth]})
              (model (configured (scene (BOX 2) 1 {[1 := g_earth]})))
              (Link (scene (BOX 2) 5 {[1 := g_earth]})) = [3]) as ->
      by (vm_compute; reflexivity).
    apply list_elem_of_singleton. reflexivity.
  - vm_compute; reflexivity.
  - vm_compute; reflexivity.
Defined.

(** C7.  When [Configure] is given an entity that is not a model, or no
    world entity exists, or the world has no gravity component, the
    gravity pointer stays null; every later [PreUpdate] then returns at
    once, leaving the state (the volume cache is not even indexed) and
    the store exactly as they were, for any store and any number of
    ticks. *)
Theorem C7_failed_configure_is_inert _entity _sdf mm ecm :
  Valid ecm _entity = false ∨
  EntityByComponents ecm (World ecm) = kNullEntity ∨
  Gravity ecm !! EntityByComponents ecm (World ecm) = None →
  let st := Configure _entity _sdf mm ecm BuoyancyPrivate_init in
  gravity st = None ∧
  (∀ ecm', PreUpdate st ecm' = Some (st, ecm')) ∧
  (∀ stores, ticks stores st = Some st).
Proof.
  intros Hfail st.
  assert (gravity st = None) as Hg.
  { subst st. unfold Configure.
    destruct (Valid ecm _entity); simpl; [|done].
    case_bool_decide as Hw; simpl; [done|].
    destruct Hfail as [?|[?|Hnone]]; [done..|]. by rewrite Hnone. }
  assert (∀ ecm', PreUpdate st ecm' = Some (st, ecm')) as Hpre.
  { intros ecm'. unfold PreUpdate. by rewrite Hg. }
  repeat split; [done..|].
  intros stores. induction stores as [|e stores IH]; [done|].
  simpl. by rewrite Hpre.
Qed.

Lemma C7_failed_configure_is_inert_witness :
  let st := Configure 2 {| fluid_density := None |} no_meshes
                      (scene (BOX 2) 1 ∅) BuoyancyPrivate_init in
  gravity st = None ∧
  (∀ ecm', PreUpdate st ecm' = Some (st, ecm')) ∧
  (∀ stores, ticks stores st = Some st).
Proof.
  apply (C7_failed_configure_is_inert 2 {| fluid_density := None |}
           no_meshes (scene (BOX 2) 1 ∅)).
  right; right. vm_compute; reflexivity.
Defined.

(** C9.  An entry of the volume cache is never changed by [PreUpdate]:
    whatever stores (poses) the ticks of a run see, every entry the cache
    holds before the run it holds, with the same volume and offset, after
    it; and the run does return when each tick's preconditions hold. *)
Theorem C9_cached_volume_properties_immutable stores st k vp :
  volPropsMap st !! k = Some vp →
  (∀ st', ticks stores st = Some st' → volPropsMap st' !! k = Some vp) ∧
  (Forall (ready st) stores → ∃ st', ticks stores st = Some st').
Proof.
  intros Hk. split.
  - intros st' Hrun. apply ticks_cache in Hrun as (_ & _ & _ & Hv). by apply Hv.
  - apply ticks_total.
Qed.

Lemma C9_cached_volume_properties_immutable_witness :
  let st := configured (scene (BOX 2) 1 {[1 := g_earth]}) in
  let stores := [scene (BOX 2) 1 {[1 := g_earth]};
                 scene (BOX 2) 7 {[1 := g_earth]}] in
  ticks stores st = Some st ∧
  ((∀ st', ticks stores st = Some st' →
           volPropsMap st' !! to_int 3 = Some {| cov := math.Zero; volume := 2 |}) ∧
   (Forall (ready st) stores → ∃ st', ticks stores st = Some st')).
Proof.
  split; [vm_compute; reflexivity|].
  apply (C9_cached_volume_properties_immutable
           [scene (BOX 2) 1 {[1 := g_earth]}; scene (BOX 2) 7 {[1 := g_earth]}]
           (configured (scene (BOX 2) 1 {[1 := g_earth]})) (to_int 3)
           {| cov := math.Zero; volume := 2 |}).
  vm_compute; reflexivity.
Defined.

(** *** Further properties of [PreUpdate] *)

Lemma with_ExternalWorldWrenchCmd_id ecm :
  with_ExternalWorldWrenchCmd (ExternalWorldWrenchCmd ecm) ecm = ecm.
Proof. by destruct ecm. Qed.

Lemma with_volPropsMap_id st : with_volPropsMap (volPropsMap st) st = st.
Proof. by destruct st. Qed.

Lemma preUpdateStep_inv world st ecm l st1 ecm1 :
  preUpdateStep world (Some (st, ecm)) l = Some (st1, ecm1) →
  ∃ g inertial,
    Gravity ecm !! world = Some g ∧ Inertial ecm !! l = Some inertial ∧
    st1 = with_volPropsMap (touch (volPropsMap st) (to_int l)) st ∧
    ecm1 = set_ExternalWorldWrenchCmd l
             (linkWrench (fluidDensity st) (at_key (volPropsMap st) (to_int l))
                         g (worldPose l ecm) inertial) ecm.
Proof.
  unfold preUpdateStep; simpl. intros H.
  destruct (Gravity ecm !! world) as [g|]; simpl in H; [|done].
  destruct (Inertial ecm !! l) as [inertial|]; simpl in H; [|done].
  exists g, inertial. destruct (ExternalWorldWrenchCmd ecm !! l); by simplify_eq.
Qed.

Lemma touch_fold_lookup keys :
  ∀ (m : gmap Z VolumeProperties) k,
    foldl touch m keys !! k =
      match m !! k with
      | Some vp => Some vp
      | None => if decide (k ∈ keys) then Some VolumeProperties_default else None
      end.
Proof.
  induction keys as [|a keys IH]; intros m k.
  { cbn [foldl]. destruct (m !! k); [done|].
    by rewrite decide_False by apply not_elem_of_nil. }
  cbn [foldl]. rewrite IH. unfold touch.
  destruct (m !! a) eqn:Ha.
  - destruct (m !! k) eqn:Hk; [done|].
    assert (k ≠ a) by congruence.
    destruct (decide (k ∈ keys)) as [Hin|Hin].
    + rewrite (decide_True (P := k ∈ a :: keys)); [done|by right].
    + rewrite (decide_False (P := k ∈ a :: keys)); [done|].
      intros [?|?]%elem_of_cons; done.
  - destruct (decide (a = k)) as [->|Hne].
    + rewrite lookup_insert_eq, Ha.
      by rewrite (decide_True (P := k ∈ k :: keys)) by left.
    + rewrite lookup_insert_ne by done. destruct (m !! k); [done|].
      destruct (decide (k ∈ keys)) as [Hin|Hin].
      * rewrite (decide_True (P := k ∈ a :: keys)); [done|by right].
      * rewrite (decide_False (P := k ∈ a :: keys)); [done|].
        intros [?|?]%elem_of_cons; done.
Qed.

(** What a loop that runs to its end has done *)
Lemma preUpdate_loop_inv world links :
  ∀ st ecm st' ecm',
    foldl (preUpdateStep world) (Some (st, ecm)) links = Some (st', ecm') →
    st' = with_volPropsMap (foldl touch (volPropsMap st) (to_int <$> links)) st ∧
    ecm' = with_ExternalWorldWrenchCmd (ExternalWorldWrenchCmd ecm') ecm ∧
    (∀ e, e ∉ links →
          ExternalWorldWrenchCmd ecm' !! e = ExternalWorldWrenchCmd ecm !! e) ∧
    (∀ l, l ∈ links → is_Some (ExternalWorldWrenchCmd ecm' !! l)) ∧
    (links ≠ [] → is_Some (Gravity ecm !! world)) ∧
    (∀ l, l ∈ links → is_Some (Inertial ecm !! l)).
Proof.
  induction links as [|l links IH]; intros st ecm st' ecm' Hfold.
  { simpl in Hfold. simplify_eq. cbn [fmap list_fmap foldl].
    rewrite with_volPropsMap_id, with_ExternalWorldWrenchCmd_id.
    repeat split; try done; intros l Hl; by apply elem_of_nil in Hl. }
  change (foldl (preUpdateStep world) (Some (st, ecm)) (l :: links))
    with (foldl (preUpdateStep world)
                (preUpdateStep world (Some (st, ecm)) l) links) in Hfold.
  destruct (preUpdateStep world (Some (st, ecm)) l) as [[st1 ecm1]|] eqn:Hstep;
    [|by rewrite preUpdate_loop_None in Hfold].
  apply preUpdateStep_inv in Hstep as (g & inertial & Hg & Hi & -> & ->).
  apply IH in Hfold as (-> & Hecm & Hout & Hin & _ & Hinert).
  split; [done|]. split; [by rewrite Hecm at 1|].
  split; [|split; [|split]].
  - intros e [Hne He]%not_elem_of_cons. rewrite (Hout e He). simpl.
    by rewrite lookup_insert_ne.
  - intros l' [->|Hl']%elem_of_cons; [|by apply Hin].
    destruct (decide (l ∈ links)) as [Hl|Hl]; [by apply Hin|].
    rewrite (Hout l Hl). simpl. rewrite lookup_insert_eq. by eexists.
  - intros _. by eexists.
  - intros l' [->|Hl']%elem_of_cons; [by eexists|]. by apply Hinert.
Qed.

Lemma preUpdate_loop_fails world links :
  ∀ st ecm,
    foldl (preUpdateStep world) (Some (st, ecm)) links = None ↔
    ∃ l, l ∈ links ∧ (Gravity ecm !! world = None ∨ Inertial ecm !! l = None).
Proof.
  induction links as [|l links IH]; intros st ecm.
  { split; [done|]. intros (l & Hl & _). by apply elem_of_nil in Hl. }
  change (foldl (preUpdateStep world) (Some (st, ecm)) (l :: links))
    with (foldl (preUpdateStep world)
                (preUpdateStep world (Some (st, ecm)) l) links).
  destruct (preUpdateStep world (Some (st, ecm)) l) as [[st1 ecm1]|] eqn:Hstep.
  - apply preUpdateStep_inv in Hstep as (g & inertial & Hg & Hi & -> & ->).
    rewrite IH. simpl. split.
    + intros (l' & Hl' & H). exists l'. split; [by right|done].
    + intros (l' & [->|Hl']%elem_of_cons & H); [|by exists l'].
      destruct H; congruence.
  - rewrite preUpdate_loop_None. split; [intros _|done].
    exists l. split; [left|].
    unfold preUpdateStep in Hstep; simpl in Hstep.
    destruct (Gravity ecm !! world); simpl in Hstep; [|by left].
    destruct (Inertial ecm !! l); simpl in Hstep; [|by right].
    by destruct (ExternalWorldWrenchCmd ecm !! l).
Qed.

(** X1.  A tick that returns changes nothing in the store but wrench
    slots, and only those of the model's links; when gravity is resolved
    every link of the model has a wrench slot afterwards.  In the plugin
    state only the volume cache can change. *)
Theorem X1_PreUpdate_writes_only_link_wrenches st ecm st' ecm' :
  PreUpdate st ecm = Some (st', ecm') →
  ecm' = with_ExternalWorldWrenchCmd (ExternalWorldWrenchCmd ecm') ecm ∧
  st' = with_volPropsMap (volPropsMap st') st ∧
  (∀ e, e ∉ ChildrenByComponents ecm (model st) (Link ecm) →
        ExternalWorldWrenchCmd ecm' !! e = ExternalWorldWrenchCmd ecm !! e) ∧
  (∀ l, is_Some (gravity st) →
        l ∈ ChildrenByComponents ecm (model st) (Link ecm) →
        is_Some (ExternalWorldWrenchCmd ecm' !! l)).
Proof.
  unfold PreUpdate. intros H.
  destruct (gravity st) as [world|] eqn:Hg.
  - apply preUpdate_loop_inv in H as (-> & Hecm & Hout & Hin & _).
    split; [done|]. split; [done|]. split; [done|].
    intros l _. apply Hin.
  - simplify_eq.
    rewrite with_ExternalWorldWrenchCmd_id, with_volPropsMap_id.
    split; [done|]. split; [done|]. split; [done|].
    intros l [w Hw]. congruence.
Qed.

Lemma X1_PreUpdate_writes_only_link_wrenches_witness :
  let st := configured (scene (BOX 2) 1 {[1 := g_earth]}) in
  let ecm := scene (BOX 2) 5 {[1 := g_earth]} in
  ∃ st' ecm',
    PreUpdate st ecm = Some (st', ecm') ∧
    ecm' = with_ExternalWorldWrenchCmd (ExternalWorldWrenchCmd ecm') ecm ∧
    st' = with_volPropsMap (volPropsMap st') st ∧
    (∀ e, e ∉ ChildrenByComponents ecm (model st) (Link ecm) →
          ExternalWorldWrenchCmd ecm' !! e = ExternalWorldWrenchCmd ecm !! e) ∧
    (∀ l, is_Some (gravity st) →
          l ∈ ChildrenByComponents ecm (model st) (Link ecm) →
          is_Some (ExternalWorldWrenchCmd ecm' !! l)).
Proof.
  intros st ecm. eexists _, _. split; [vm_compute; reflexivity|].
  apply (X1_PreUpdate_writes_only_link_wrenches st ecm).
  vm_compute; reflexivity.
Defined.

(** X2.  [PreUpdate] runs into undefined behaviour exactly when gravity
    was resolved and, for some link of the model, the gravity component
    it points to is gone or the link has no [Inertial] component. *)
Theorem X2_PreUpdate_undefined_iff st ecm :
  PreUpdate st ecm = None ↔
  ∃ world l,
    gravity st = Some world ∧
    l ∈ ChildrenByComponents ecm (model st) (Link ecm) ∧
    (Gravity ecm !! world = None ∨ Inertial ecm !! l = None).
Proof.
  unfold PreUpdate. destruct (gravity st) as [world|].
  - rewrite preUpdate_loop_fails. split.
    + intros (l & Hl & H). by exists world, l.
    + intros (w & l & Hw & Hl & H). simplify_eq. by exists l.
  - split; [done|]. by intros (w & l & Hw & _).
Qed.

Lemma X2_PreUpdate_undefined_iff_witness :
  PreUpdate {| model := 2; gravity := Some 1; fluidDensity := 1000;
               volPropsMap := ∅ |}
            (scene (BOX 2) 1 ∅) = None.
Proof.
  apply (proj2 (X2_PreUpdate_undefined_iff
                  {| model := 2; gravity := Some 1; fluidDensity := 1000;
                     volPropsMap := ∅ |} (scene (BOX 2) 1 ∅))).
  exists 1, 3. split; [reflexivity|]. split.
  - assert (ChildrenByComponents (scene (BOX 2) 1 ∅) 2
              (Link (scene (BOX 2) 1 ∅)) = [3]) as Heq
      by (vm_compute; reflexivity).
    cbn [model]. rewrite Heq. apply list_elem_of_singleton. reflexivity.
  - left. vm_compute; reflexivity.
Defined.

(** X3.  With gravity resolved, a tick that returns adds to the volume
    cache a default entry (volume 0, zero offset) for the key of every
    link of the model that had none, and nothing else. *)
Theorem X3_PreUpdate_adds_default_entries st ecm st' ecm' world k :
  gravity st = Some world →
  PreUpdate st ecm = Some (st', ecm') →
  volPropsMap st' !! k =
    match volPropsMap st !! k with
    | Some vp => Some vp
    | None =>
        if decide (k ∈ to_int <$> ChildrenByComponents ecm (model st) (Link ecm))
        then Some VolumeProperties_default
        else None
    end.
Proof.
  unfold PreUpdate. intros -> H.
  apply preUpdate_loop_inv in H as (-> & _). simpl.
  apply touch_fold_lookup.
Qed.

Lemma X3_PreUpdate_adds_default_entries_witness :
  let st := {| model := 2; gravity := Some 1; fluidDensity := 1000;
               volPropsMap := ∅ |} in
  ∃ st' ecm',
    PreUpdate st (scene (BOX 2) 5 {[1 := g_earth]}) = Some (st', ecm') ∧
    volPropsMap st' !! 3 = Some VolumeProperties_default ∧
    volPropsMap st' !! 4 = None.
Proof.
  intros st. eexists _, _. split; [vm_compute; reflexivity|].
  split.
  - erewrite (X3_PreUpdate_adds_default_entries st
                (scene (BOX 2) 5 {[1 := g_earth]}))
      by (vm_compute; reflexivity).
    vm_compute; reflexivity.
  - erewrite (X3_PreUpdate_adds_default_entries st
                (scene (BOX 2) 5 {[1 := g_earth]}))
      by (vm_compute; reflexivity).
    vm_compute; reflexivity.
Defined.

Lemma at_key_touch_fold keys :
  ∀ (m : gmap Z VolumeProperties) k, at_key (foldl touch m keys) k = at_key m k.
Proof.
  induction keys as [|a keys IH]; intros m k; [done|].
  cbn [foldl]. by rewrite IH, at_key_touch.
Qed.

Lemma touch_fold_again keys (m : gmap Z VolumeProperties) :
  foldl touch (foldl touch m keys) keys = foldl touch m keys.
Proof.
  apply map_eq. intros k. rewrite touch_fold_lookup.
  destruct (foldl touch m keys !! k) eqn:Hk; [done|].
  rewrite touch_fold_lookup in Hk. destruct (m !! k); [done|].
  destruct (decide (k ∈ keys)); done.
Qed.

(** X4.  A tick is a fixed point on its own result: run again on the
    store and state it returned, [PreUpdate] returns them unchanged (the
    same wrenches are written again, no cache entry is added). *)
Theorem X4_PreUpdate_twice st ecm st' ecm' :
  PreUpdate st ecm = Some (st', ecm') →
  PreUpdate st' ecm' = Some (st', ecm').
Proof.
  unfold PreUpdate. destruct (gravity st) as [world|] eqn:Hg.
  2:{ intros ?; simplify_eq. by rewrite Hg. }
  intros Hfold.
  remember (ChildrenByComponents ecm (model st) (Link ecm)) as links eqn:Hlinks.
  pose proof (preUpdate_loop_inv _ _ _ _ _ _ Hfold)
    as (Hst & Hecm & _ & _ & Hgrav & Hin).
  assert (gravity st' = Some world) as Hg2 by (by rewrite Hst).
  assert (ChildrenByComponents ecm' (model st') (Link ecm') = links) as Hl2.
  { rewrite Hecm, Hst, Hlinks. done. }
  rewrite Hg2, Hl2.
  destruct (decide (links = [])) as [Hnil|Hnil]; [by rewrite Hnil|].
  destruct (Hgrav Hnil) as [g Hg'].
  destruct (preUpdate_loop_ok st ecm world g links Hg' Hin st ecm
              (same_inputs_refl _ _)) as (st1 & ecm1 & Hfold1 & Hsame & Hw1 & _).
  rewrite Hfold in Hfold1. injection Hfold1 as <- <-.
  destruct (preUpdate_loop_ok st ecm world g links Hg' Hin st' ecm' Hsame)
    as (st2 & ecm2 & Hfold2 & _ & Hw2 & _).
  rewrite Hfold2. f_equal.
  pose proof (preUpdate_loop_inv _ _ _ _ _ _ Hfold2) as (Hst2 & Hecm2 & _).
  assert (ExternalWorldWrenchCmd ecm2 = ExternalWorldWrenchCmd ecm') as HW.
  { apply map_eq. intros l. rewrite Hw2, Hw1. by destruct (decide (l ∈ links)). }
  rewrite Hecm2, HW, with_ExternalWorldWrenchCmd_id.
  rewrite Hst2.
  assert (foldl touch (volPropsMap st') (to_int <$> links) = volPropsMap st')
    as ->.
  { rewrite Hst. simpl. apply touch_fold_again. }
  by rewrite with_volPropsMap_id.
Qed.

Lemma X4_PreUpdate_twice_witness :
  let st := configured (scene (BOX 2) 1 {[1 := g_earth]}) in
  let ecm := scene (BOX 2) 5 {[1 := g_earth]} in
  ∃ st' ecm',
    PreUpdate st ecm = Some (st', ecm') ∧
    ExternalWorldWrenchCmd ecm' ≠ ExternalWorldWrenchCmd ecm ∧
    PreUpdate st' ecm' = Some (st', ecm').
Proof.
  intros st ecm. eexists _, _. split; [vm_compute; reflexivity|].
  split.
  - intros H. apply (f_equal (λ m, m !! 3)) in H. vm_compute in H. discriminate H.
  - apply (X4_PreUpdate_twice st ecm). vm_compute; reflexivity.
Defined.

(** *** Further properties of [Configure] *)

Lemma to_int_small e : 0 ≤ e < 2 ^ 31 → to_int e = e.
Proof. intros H. unfold to_int. rewrite Z.mod_small; lia. Qed.

Lemma linkStep_insert mm ecm m link :
  linkStep mm ecm m link = <[to_int link := linkProperties mm ecm link]> m.
Proof.
  unfold linkStep, linkProperties.
  destruct (foldl (collisionStep mm ecm) (0%float, math.Zero)
                  (ChildrenByComponents ecm link (Collision ecm)))
    as [volumeSum weightedPosSum].
  rewrite insert_insert_eq. unfold at_key at 1. by rewrite lookup_insert_eq.
Qed.

Lemma linkStep_fold_lookup mm ecm links :
  (∀ l l', l ∈ links → l' ∈ links → to_int l = to_int l' → l = l') →
  ∀ m,
    (∀ l, l ∈ links →
          foldl (linkStep mm ecm) m links !! to_int l =
            Some (linkProperties mm ecm l)) ∧
    (∀ k, k ∉ to_int <$> links → foldl (linkStep mm ecm) m links !! k = m !! k).
Proof.
  induction links as [|a links IH]; intros Hinj m.
  { split; [intros l Hl; by apply elem_of_nil in Hl|done]. }
  cbn [foldl]. rewrite linkStep_insert.
  destruct (IH (λ l l' Hl Hl', Hinj l l' (list_elem_of_further _ _ _ Hl)
                                 (list_elem_of_further _ _ _ Hl'))
               (<[to_int a := linkProperties mm ecm a]> m)) as [IH1 IH2].
  split.
  - intros l Hl. destruct (decide (l ∈ links)) as [Hin|Hin]; [by apply IH1|].
    apply elem_of_cons in Hl as [->|Hl]; [|done].
    rewrite IH2; [by rewrite lookup_insert_eq|].
    intros (l' & Heq & Hl')%list_elem_of_fmap.
    apply Hin. rewrite (Hinj a l'); [done|left|by right|done].
  - intros k Hk. rewrite fmap_cons, not_elem_of_cons in Hk. destruct Hk as [Hne Hk].
    rewrite IH2 by done. by rewrite lookup_insert_ne.
Qed.

Lemma Configure_valid _entity _sdf mm ecm st :
  Valid ecm _entity = true →
  model (Configure _entity _sdf mm ecm st) = _entity ∧
  fluidDensity (Configure _entity _sdf mm ecm st) =
    default (fluidDensity st) (fluid_density _sdf) ∧
  volPropsMap (Configure _entity _sdf mm ecm st) =
    foldl (linkStep mm ecm) (volPropsMap st)
          (ChildrenByComponents ecm _entity (Link ecm)) ∧
  gravity (Configure _entity _sdf mm ecm st) =
    if bool_decide (EntityByComponents ecm (World ecm) = kNullEntity)
    then gravity st
    else match Gravity ecm !! EntityByComponents ecm (World ecm) with
         | Some _ => Some (EntityByComponents ecm (World ecm))
         | None => None
         end.
Proof.
  intros Hv. unfold Configure. rewrite Hv. simpl. by case_bool_decide.
Qed.

(** X5.  On a valid model whose link identifiers fit in an [int],
    [Configure] leaves in the cache, under each link's own identifier,
    exactly the properties computed from that link's collisions (any
    previous entry is overwritten), leaves all other keys alone, takes
    the density from the configuration when it gives one, and records
    the model. *)
Theorem X5_Configure_caches_each_link _entity _sdf mm ecm st :
  Valid ecm _entity = true →
  (∀ l, l ∈ ChildrenByComponents ecm _entity (Link ecm) → 0 ≤ l < 2 ^ 31) →
  let st' := Configure _entity _sdf mm ecm st in
  (∀ l, l ∈ ChildrenByComponents ecm _entity (Link ecm) →
        volPropsMap st' !! l = Some (linkProperties mm ecm l)) ∧
  (∀ k, k ∉ to_int <$> ChildrenByComponents ecm _entity (Link ecm) →
        volPropsMap st' !! k = volPropsMap st !! k) ∧
  model st' = _entity ∧
  fluidDensity st' = default (fluidDensity st) (fluid_density _sdf).
Proof.
  intros Hv Hsmall st'.
  destruct (Configure_valid _entity _sdf mm ecm st Hv) as (Hm & Hd & Hvpm & _).
  destruct (linkStep_fold_lookup mm ecm
              (ChildrenByComponents ecm _entity (Link ecm))) with (m := volPropsMap st)
    as [H1 H2].
  { intros l l' Hl Hl'. rewrite !to_int_small by auto. done. }
  subst st'. rewrite Hvpm. split; [|split; [exact H2|done]].
  intros l Hl. rewrite <- (to_int_small l) at 1 by auto. by apply H1.
Qed.

Lemma X5_Configure_caches_each_link_witness :
  let ecm := scene (BOX 2) 1 {[1 := g_earth]} in
  let st' := Configure 2 {| fluid_density := Some 1025%float |} no_meshes ecm
                       BuoyancyPrivate_init in
  linkProperties no_meshes ecm 3 = {| cov := math.Zero; volume := 2 |} ∧
  ((∀ l, l ∈ ChildrenByComponents ecm 2 (Link ecm) →
         volPropsMap st' !! l = Some (linkProperties no_meshes ecm l)) ∧
   (∀ k, k ∉ to_int <$> ChildrenByComponents ecm 2 (Link ecm) →
         volPropsMap st' !! k = volPropsMap BuoyancyPrivate_init !! k) ∧
   model st' = 2 ∧
   fluidDensity st' =
     default (fluidDensity BuoyancyPrivate_init) (Some 1025%float)).
Proof.
  intros ecm st'. split; [vm_compute; reflexivity|].
  apply (X5_Configure_caches_each_link 2 {| fluid_density := Some 1025%float |}
           no_meshes ecm BuoyancyPrivate_init).
  - vm_compute; reflexivity.
  - intros l Hl.
    assert (ChildrenByComponents ecm 2 (Link ecm) = [3]) as Heq
      by (vm_compute; reflexivity).
    rewrite Heq in Hl. apply list_elem_of_singleton in Hl as ->. lia.
Defined.

(** X6.  [Configure] followed by a tick on the same store: for a valid
    model in a world with gravity [g], whose links have identifiers that
    fit in an [int] and an [Inertial] component, the tick returns and
    leaves in every link's wrench slot the wrench computed from the
    properties [Configure] derived from that link's collisions. *)
Theorem X6_Configure_then_PreUpdate _entity _sdf mm ecm g :
  Valid ecm _entity = true →
  EntityByComponents ecm (World ecm) ≠ kNullEntity →
  Gravity ecm !! EntityByComponents ecm (World ecm) = Some g →
  (∀ l, l ∈ ChildrenByComponents ecm _entity (Link ecm) →
        0 ≤ l < 2 ^ 31 ∧ is_Some (Inertial ecm !! l)) →
  let st := Configure _entity _sdf mm ecm BuoyancyPrivate_init in
  ∃ st' ecm',
    PreUpdate st ecm = Some (st', ecm') ∧
    volPropsMap st' = volPropsMap st ∧
    ∀ l inertial,
      l ∈ ChildrenByComponents ecm _entity (Link ecm) →
      Inertial ecm !! l = Some inertial →
      ExternalWorldWrenchCmd ecm' !! l =
        Some (linkWrench (default 1000%float (fluid_density _sdf))
                         (linkProperties mm ecm l) g (worldPose l ecm) inertial).
Proof.
  intros Hv Hw Hg Hlinks st.
  destruct (Configure_valid _entity _sdf mm ecm BuoyancyPrivate_init Hv)
    as (Hm & Hd & Hvpm & Hgr).
  rewrite bool_decide_false, Hg in Hgr by done.
  fold st in Hm, Hd, Hvpm, Hgr.
  set (links := ChildrenByComponents ecm _entity (Link ecm)) in *.
  destruct (linkStep_fold_lookup mm ecm links) with (m := (∅ : gmap Z VolumeProperties))
    as [H1 H2].
  { intros l l' Hl Hl'.
    rewrite !to_int_small by (by apply Hlinks). done. }
  destruct (preUpdate_loop_ok st ecm _ g links Hg
              (λ l Hl, proj2 (Hlinks l Hl)) st ecm (same_inputs_refl _ _))
    as (st' & ecm' & Hfold & _ & Hwr & _).
  exists st', ecm'. split; [|split].
  - unfold PreUpdate. by rewrite Hgr, Hm.
  - apply preUpdate_loop_inv in Hfold as (-> & _). simpl.
    apply map_eq. intros k. rewrite touch_fold_lookup.
    destruct (volPropsMap st !! k) eqn:Hk; [done|].
    rewrite decide_False; [done|].
    intros (l & -> & Hl)%list_elem_of_fmap.
    rewrite Hvpm in Hk. simpl in Hk. by rewrite (H1 l Hl) in Hk.
  - intros l inertial Hl Hin. rewrite Hwr, decide_True by done.
    unfold tickWrench, at_key. rewrite Hd, Hvpm. simpl.
    by rewrite (H1 l Hl), Hin.
Qed.

Lemma X6_Configure_then_PreUpdate_witness :
  let ecm := scene (BOX 2) 1 {[1 := g_earth]} in
  let st := Configure 2 {| fluid_density := None |} no_meshes ecm
                      BuoyancyPrivate_init in
  ∃ st' ecm',
    PreUpdate st ecm = Some (st', ecm') ∧
    volPropsMap st' = volPropsMap st ∧
    ∀ l inertial,
      l ∈ ChildrenByComponents ecm 2 (Link ecm) →
      Inertial ecm !! l = Some inertial →
      ExternalWorldWrenchCmd ecm' !! l =
        Some (linkWrench (default 1000%float None)
                         (linkProperties no_meshes ecm l) g_earth
                         (worldPose l ecm) inertial).
Proof.
  intros ecm st.
  apply (X6_Configure_then_PreUpdate 2 {| fluid_density := None |} no_meshes
           ecm g_earth).
  - vm_compute; reflexivity.
  - vm_compute. intros H. discriminate H.
  - vm_compute; reflexivity.
  - intros l Hl.
    assert (ChildrenByComponents ecm 2 (Link ecm) = [3]) as Heq
      by (vm_compute; reflexivity).
    rewrite Heq in Hl. apply list_elem_of_singleton in Hl as ->.
    split; [lia|]. exists math.Pose3d_default. vm_compute; reflexivity.
Defined.

(** *** NaN in binary64 arithmetic *)

Lemma SFeqb_refl_nan s : SpecFloat.SFeqb s s = false ↔ s = SpecFloat.S754_nan.
Proof.
  unfold SpecFloat.SFeqb.
  destruct s as [s|s| |s m e]; simpl.
  - done.
  - by destruct s.
  - done.
  - rewrite Z.compare_refl, Pos.compare_refl. by destruct s.
Qed.

Lemma is_nan_spec x : is_nan x = true ↔ FloatOps.Prim2SF x = SpecFloat.S754_nan.
Proof.
  unfold is_nan. rewrite FloatAxioms.eqb_spec, <- SFeqb_refl_nan.
  by destruct (SpecFloat.SFeqb _ _).
Qed.

Lemma is_zero_spec x :
  is_zero x = true ↔ ∃ s, FloatOps.Prim2SF x = SpecFloat.S754_zero s.
Proof.
  unfold is_zero. rewrite FloatAxioms.eqb_spec.
  change (FloatOps.Prim2SF zero) with (SpecFloat.S754_zero false).
  unfold SpecFloat.SFeqb.
  destruct (FloatOps.Prim2SF x) as [s|s| |s m e]; simpl.
  - split; eauto.
  - split; [by destruct s|]. by intros [? ?].
  - split; [done|]. by intros [? ?].
  - split; [by destruct s|]. by intros [? ?].
Qed.

Lemma zero_or_nan_spec x :
  zero_or_nan x = true ↔
  FloatOps.Prim2SF x = SpecFloat.S754_nan ∨
  ∃ s, FloatOps.Prim2SF x = SpecFloat.S754_zero s.
Proof.
  unfold zero_or_nan. rewrite orb_true_iff, is_nan_spec, is_zero_spec. tauto.
Qed.

Lemma nan_add_l x y : is_nan x = true → is_nan (x + y) = true.
Proof. rewrite !is_nan_spec, FloatAxioms.add_spec. by intros ->. Qed.

Lemma nan_add_r x y : is_nan y = true → is_nan (x + y) = true.
Proof.
  rewrite !is_nan_spec, FloatAxioms.add_spec. intros ->.
  by destruct (FloatOps.Prim2SF x).
Qed.

Lemma nan_sub_l x y : is_nan x = true → is_nan (x - y) = true.
Proof. rewrite !is_nan_spec, FloatAxioms.sub_spec. by intros ->. Qed.

Lemma nan_sub_r x y : is_nan y = true → is_nan (x - y) = true.
Proof.
  rewrite !is_nan_spec, FloatAxioms.sub_spec. intros ->.
  by destruct (FloatOps.Prim2SF x).
Qed.

Lemma nan_mul_l x y : is_nan x = true → is_nan (x * y) = true.
Proof. rewrite !is_nan_spec, FloatAxioms.mul_spec. by intros ->. Qed.

Lemma nan_mul_r x y : is_nan y = true → is_nan (x * y) = true.
Proof.
  rewrite !is_nan_spec, FloatAxioms.mul_spec. intros ->.
  by destruct (FloatOps.Prim2SF x).
Qed.

Lemma zero_add x y : is_zero x = true → is_zero y = true → is_zero (x + y) = true.
Proof.
  rewrite !is_zero_spec, FloatAxioms.add_spec. intros [s ->] [s' ->].
  destruct s, s'; simpl; by eexists.
Qed.

Lemma zero_or_nan_add x y :
  zero_or_nan x = true → zero_or_nan y = true → zero_or_nan (x + y) = true.
Proof.
  rewrite !zero_or_nan_spec, FloatAxioms.add_spec.
  intros [->|[s ->]] [->|[s' ->]]; simpl; [by left..|].
  destruct s, s'; right; by eexists.
Qed.

Lemma zero_or_nan_mul_zero x y : is_zero y = true → zero_or_nan (x * y) = true.
Proof.
  rewrite zero_or_nan_spec, is_zero_spec, FloatAxioms.mul_spec. intros [s ->].
  destruct (FloatOps.Prim2SF x); simpl; first [by left | right; by eexists].
Qed.

Lemma nan_div_zero x y :
  zero_or_nan x = true → is_zero y = true → is_nan (x / y) = true.
Proof.
  rewrite zero_or_nan_spec, is_zero_spec, is_nan_spec, FloatAxioms.div_spec.
  intros [->|[s ->]] [s' ->]; done.
Qed.

Create HintDb nan.
#[local] Hint Resolve nan_add_l nan_add_r nan_sub_l nan_sub_r nan_mul_l nan_mul_r : nan.

Lemma vnan_components v :
  math.vnan v = true ↔
  is_nan (math.vX v) = true ∧ is_nan (math.vY v) = true ∧ is_nan (math.vZ v) = true.
Proof. unfold math.vnan. rewrite !andb_true_iff. tauto. Qed.

Lemma vzero_or_nan_components v :
  vzero_or_nan v = true ↔
  zero_or_nan (math.vX v) = true ∧ zero_or_nan (math.vY v) = true ∧
  zero_or_nan (math.vZ v) = true.
Proof. unfold vzero_or_nan. rewrite !andb_true_iff. tauto. Qed.

Lemma RotateVector_nan q v :
  math.vnan v = true → math.vnan (math.RotateVector q v) = true.
Proof.
  rewrite !vnan_components. intros (Hx & Hy & Hz).
  unfold math.RotateVector.
  set (i := math.Inverse q).
  set (p := math.qmul (math.Quaternion 0 (math.vX v) (math.vY v) (math.vZ v)) i).
  assert (is_nan (math.qw p) = true ∧ is_nan (math.qx p) = true ∧
          is_nan (math.qy p) = true ∧ is_nan (math.qz p) = true)
    as (Hw & Hpx & Hpy & Hpz).
  { subst p. unfold math.qmul. simpl. repeat split; auto 8 with nan. }
  unfold math.qmul. simpl. repeat split; auto 8 with nan.
Qed.

Lemma Cross_nan a b : math.vnan a = true → math.vnan (math.Cross a b) = true.
Proof.
  rewrite !vnan_components. intros (Hx & Hy & Hz).
  unfold math.Cross. simpl. repeat split; auto with nan.
Qed.

(** A NaN offset gives a NaN torque, whatever the density, the gravity,
    the orientation and the inertial pose. *)
Lemma linkWrench_nan density vp g pose inertial :
  math.vnan (cov vp) = true →
  math.vnan (msgs.torque (linkWrench density vp g pose inertial)) = true.
Proof.
  intros Hcov. unfold linkWrench. simpl.
  apply Cross_nan, RotateVector_nan.
  apply vnan_components in Hcov as (Hx & Hy & Hz).
  apply vnan_components. unfold math.sub. simpl. auto with nan.
Qed.

Lemma collisions_zero_volume mm ecm collisions :
  (∀ c geom, c ∈ collisions → CollisionElement ecm !! c = Some geom →
             is_zero (shapeVolume mm geom) = true) →
  ∀ acc,
    is_zero acc.1 = true → vzero_or_nan acc.2 = true →
    is_zero (foldl (collisionStep mm ecm) acc collisions).1 = true ∧
    vzero_or_nan (foldl (collisionStep mm ecm) acc collisions).2 = true.
Proof.
  induction collisions as [|c collisions IH]; intros Hzero acc H1 H2; [done|].
  cbn [foldl].
  apply IH; [intros c' geom Hc'; apply Hzero; by right| |];
    unfold collisionStep; destruct (CollisionElement ecm !! c) as [geom|] eqn:Hc;
    try done; cbn [fst snd].
  - apply zero_add; [done|]. apply (Hzero c geom); [left|done].
  - apply vzero_or_nan_components in H2 as (Hx & Hy & Hz).
    assert (is_zero (shapeVolume mm geom) = true) as Hv
      by (apply (Hzero c geom); [left|done]).
    apply vzero_or_nan_components. unfold math.add, math.scale. simpl.
    repeat split; apply zero_or_nan_add; try done;
      by apply zero_or_nan_mul_zero.
Qed.

(** The properties [Configure] computes for a link all of whose shapes
    have volume zero: volume zero and an offset that is NaN in every
    component. *)
Lemma linkProperties_zero_volume mm ecm link :
  (∀ c geom, c ∈ ChildrenByComponents ecm link (Collision ecm) →
             CollisionElement ecm !! c = Some geom →
             is_zero (shapeVolume mm geom) = true) →
  is_zero (volume (linkProperties mm ecm link)) = true ∧
  math.vnan (cov (linkProperties mm ecm link)) = true.
Proof.
  intros Hzero. unfold linkProperties.
  destruct (collisions_zero_volume mm ecm _ Hzero (0%float, math.Zero))
    as [Hv Hw]; [done..|].
  cbn [volume cov]. split; [exact Hv|].
  apply vzero_or_nan_components in Hw as (Hx & Hy & Hz).
  apply vnan_components. unfold math.sub, math.div. simpl.
  repeat split; apply nan_sub_l; by apply nan_div_zero.
Qed.

(** X16.  Every link without volume is given a NaN torque.  For a valid
    model in a world with gravity, if every shape of a link has volume
    zero (no collision at all, planes, meshes that do not load, other
    geometry), [Configure] caches for that link the volume zero and an
    offset that is NaN in all components, and the next tick writes into
    the link's wrench slot a torque that is NaN in all components,
    whatever the poses, the density and the gravity are. *)
Theorem X16_zero_volume_link_gets_nan_torque _entity _sdf mm ecm g link :
  Valid ecm _entity = true →
  EntityByComponents ecm (World ecm) ≠ kNullEntity →
  Gravity ecm !! EntityByComponents ecm (World ecm) = Some g →
  (∀ l, l ∈ ChildrenByComponents ecm _entity (Link ecm) →
        0 ≤ l < 2 ^ 31 ∧ is_Some (Inertial ecm !! l)) →
  link ∈ ChildrenByComponents ecm _entity (Link ecm) →
  (∀ c geom, c ∈ ChildrenByComponents ecm link (Collision ecm) →
             CollisionElement ecm !! c = Some geom →
             is_zero (shapeVolume mm geom) = true) →
  let st := Configure _entity _sdf mm ecm BuoyancyPrivate_init in
  (∃ vp, volPropsMap st !! link = Some vp ∧
         is_zero (volume vp) = true ∧ math.vnan (cov vp) = true) ∧
  ∃ st' ecm' w,
    PreUpdate st ecm = Some (st', ecm') ∧
    ExternalWorldWrenchCmd ecm' !! link = Some w ∧
    math.vnan (msgs.torque w) = true.
Proof.
  intros Hv Hw Hg Hlinks Hlink Hzero st.
  destruct (Configure_valid _entity _sdf mm ecm BuoyancyPrivate_init Hv)
    as (Hm & Hd & Hvpm & Hgr).
  rewrite bool_decide_false, Hg in Hgr by done.
  fold st in Hm, Hd, Hvpm, Hgr.
  destruct (linkStep_fold_lookup mm ecm
              (ChildrenByComponents ecm _entity (Link ecm)))
    with (m := (∅ : gmap Z VolumeProperties)) as [H1 _].
  { intros l l' Hl Hl'.
    rewrite !to_int_small by (by apply Hlinks). done. }
  assert (volPropsMap st !! to_int link = Some (linkProperties mm ecm link)) as Hvp.
  { rewrite Hvpm. by apply H1. }
  destruct (linkProperties_zero_volume mm ecm link Hzero) as [Hvol Hcov].
  split.
  - exists (linkProperties mm ecm link).
    assert (to_int link = link) as Hk by (by apply to_int_small, Hlinks).
    rewrite Hk in Hvp. done.
  - destruct (preUpdate_loop_ok st ecm _ g
                (ChildrenByComponents ecm _entity (Link ecm)) Hg
                (λ l Hl, proj2 (Hlinks l Hl)) st ecm (same_inputs_refl _ _))
      as (st' & ecm' & Hfold & _ & Hwr & _).
    exists st', ecm', (tickWrench st ecm g link). split; [|split].
    + unfold PreUpdate. by rewrite Hgr, Hm.
    + by rewrite Hwr, decide_True.
    + unfold tickWrench, at_key. rewrite Hvp. apply linkWrench_nan. exact Hcov.
Qed.

Lemma X16_zero_volume_link_gets_nan_torque_witness :
  let ecm := scene (MESH "hull.dae") 1 {[1 := g_earth]} in
  let st := Configure 2 {| fluid_density := None |} no_meshes ecm
                      BuoyancyPrivate_init in
  (∃ vp, volPropsMap st !! 3 = Some vp ∧
         is_zero (volume vp) = true ∧ math.vnan (cov vp) = true) ∧
  ∃ st' ecm' w,
    PreUpdate st ecm = Some (st', ecm') ∧
    ExternalWorldWrenchCmd ecm' !! 3 = Some w ∧
    math.vnan (msgs.torque w) = true.
Proof.
  intros ecm st.
  apply (X16_zero_volume_link_gets_nan_torque 2 {| fluid_density := None |}
           no_meshes ecm g_earth 3).
  - vm_compute; reflexivity.
  - vm_compute. intros H. discriminate H.
  - vm_compute; reflexivity.
  - intros l Hl.
    assert (ChildrenByComponents ecm 2 (Link ecm) = [3]) as Heq
      by (vm_compute; reflexivity).
    rewrite Heq in Hl. apply list_elem_of_singleton in Hl as ->.
    split; [lia|]. exists math.Pose3d_default. vm_compute; reflexivity.
  - assert (ChildrenByComponents ecm 2 (Link ecm) = [3]) as ->
      by (vm_compute; reflexivity).
    apply list_elem_of_singleton. reflexivity.
  - intros c geom Hc Hgeom.
    assert (ChildrenByComponents ecm 3 (Collision ecm) = [4]) as Heq
      by (vm_compute; reflexivity).
    rewrite Heq in Hc. apply list_elem_of_singleton in Hc as ->.
    assert (CollisionElement ecm !! 4 = Some (MESH "hull.dae")) as Hm
      by (vm_compute; reflexivity).
    rewrite Hm in Hgeom. injection Hgeom as <-. vm_compute; reflexivity.
Defined.

End BuoyancyFacts.

(** ** Facts about VelocityControl.cc *)
Module VelocityControlFacts.
Import ecs VelocityControl.

(** *** [std::map::insert] and iteration *)

Lemma map_insert_lookup {A} (k k' : string) (v : A) (m : gmap string A) :
  map_insert k v m !! k' =
    match m !! k' with
    | Some x => Some x
    | None => if decide (k = k') then Some v else None
    end.
Proof.
  unfold map_insert. destruct (m !! k) eqn:Hk.
  - destruct (m !! k') eqn:Hk'; [done|]. case_decide; congruence.
  - destruct (decide (k = k')) as [->|Hne].
    + by rewrite lookup_insert_eq, Hk.
    + rewrite lookup_insert_ne by done. by destruct (m !! k').
Qed.

Lemma map_insert_keeps {A} (k k' : string) (v x : A) (m : gmap string A) :
  m !! k' = Some x → map_insert k v m !! k' = Some x.
Proof. intros H. by rewrite map_insert_lookup, H. Qed.

Lemma elem_of_items {A} (m : gmap string A) (k : string) (v : A) :
  (k, v) ∈ items m ↔ m !! k = Some v.
Proof.
  unfold items. rewrite merge_sort_Permutation. apply elem_of_map_to_list.
Qed.

Lemma NoDup_items {A} (m : gmap string A) : NoDup (items m).*1.
Proof.
  unfold items. rewrite merge_sort_Permutation. apply NoDup_fst_map_to_list.
Qed.

(** *** The callbacks *)

Lemma OnLinkCmdVel_fold_keeps (msg m : msgs.Twist) (t : string) (n : string)
    (names : list string) :
  ∀ lv : gmap string msgs.Twist, lv !! n = Some m →
    foldl (λ lv linkName,
             match find t linkName with
             | Some _ => map_insert linkName msg lv
             | None => lv
             end) lv names !! n = Some m.
Proof.
  induction names as [|a names IH]; intros lv Hn; simpl; [done|].
  apply IH. destruct (find t a); [|done]. by apply map_insert_keeps.
Qed.

Lemma OnLinkCmdVel_keeps msg info st n m :
  linkVels st !! n = Some m → linkVels (OnLinkCmdVel msg info st) !! n = Some m.
Proof. intros H. simpl. by apply OnLinkCmdVel_fold_keeps. Qed.

(** A message on a channel nothing is subscribed to reaches no callback. *)
Lemma deliver_unsubscribed channel msg st :
  channel ∉ (node st).*1 → deliver channel msg st = st.
Proof.
  unfold deliver. generalize (node st) as subs.
  intros subs. revert st.
  induction subs as [|[t cb] subs IH]; intros st Hsub; [done|].
  rewrite fmap_cons, not_elem_of_cons in Hsub. destruct Hsub as [Hne Hsub].
  simpl in *. rewrite bool_decide_false by done. by apply IH.
Qed.

(** *** [UpdateLinkVelocity] *)

Lemma vec_id v : vec v = v.
Proof. by destruct v. Qed.

Lemma updateLink_fold_keeps l :
  ∀ a b : gmap string math.Vector3d,
    (∀ n v, a !! n = Some v → (foldl updateLinkStep (a, b) l).1 !! n = Some v) ∧
    (∀ n v, b !! n = Some v → (foldl updateLinkStep (a, b) l).2 !! n = Some v).
Proof.
  induction l as [|[k m] l IH]; intros a b; [done|].
  simpl. split; intros n v Hn; apply IH; by apply map_insert_keeps.
Qed.

Lemma updateLink_fold_absent l (n : string) :
  n ∉ l.*1 →
  ∀ a b : gmap string math.Vector3d,
    (a !! n = None → (foldl updateLinkStep (a, b) l).1 !! n = None) ∧
    (b !! n = None → (foldl updateLinkStep (a, b) l).2 !! n = None).
Proof.
  induction l as [|[k m] l IH]; intros Hn a b; [done|].
  rewrite fmap_cons, not_elem_of_cons in Hn. destruct Hn as [Hne Hn].
  simpl in Hne. simpl.
  split; intros Ha; apply (IH Hn); simpl; rewrite map_insert_lookup, Ha;
    by rewrite decide_False.
Qed.

Lemma updateLink_fold_new l (n : string) (m : msgs.Twist) :
  NoDup l.*1 → (n, m) ∈ l →
  ∀ a b : gmap string math.Vector3d,
    (a !! n = None →
       (foldl updateLinkStep (a, b) l).1 !! n = Some (msgs.linear m)) ∧
    (b !! n = None →
       (foldl updateLinkStep (a, b) l).2 !! n = Some (msgs.angular m)).
Proof.
  induction l as [|[k m'] l IH]; intros Hnd Hin a b.
  { by apply elem_of_nil in Hin. }
  rewrite fmap_cons in Hnd. apply NoDup_cons in Hnd as [Hk Hnd]. simpl in Hk.
  apply elem_of_cons in Hin as [Heq|Hin].
  - simplify_eq. simpl.
    split; intros Ha; apply updateLink_fold_keeps; simpl;
      rewrite map_insert_lookup, Ha, decide_True by done;
      by rewrite <- (vec_id (_ m')).
  - assert (k ≠ n) as Hne.
    { intros ->. apply Hk. apply list_elem_of_fmap. by exists (n, m). }
    simpl. split; intros Ha; apply (IH Hnd Hin); simpl;
      rewrite map_insert_lookup, Ha; by rewrite decide_False.
Qed.

(** The per-link targets after [UpdateLinkVelocity]: an entry that exists
    is kept; a missing one is derived from the buffered message. *)
Lemma UpdateLinkVelocity_lookup st n :
  linearVelocities (UpdateLinkVelocity st) !! n =
    match linearVelocities st !! n with
    | Some v => Some v
    | None => msgs.linear <$> linkVels st !! n
    end ∧
  angularVelocities (UpdateLinkVelocity st) !! n =
    match angularVelocities st !! n with
    | Some v => Some v
    | None => msgs.angular <$> linkVels st !! n
    end.
Proof.
  simpl.
  pose proof (updateLink_fold_keeps (items (linkVels st))
                (linearVelocities st) (angularVelocities st)) as [Hk1 Hk2].
  destruct (linkVels st !! n) as [m|] eqn:Hlv.
  - apply elem_of_items in Hlv.
    pose proof (updateLink_fold_new _ n m (NoDup_items _) Hlv
                  (linearVelocities st) (angularVelocities st)) as [Hn1 Hn2].
    split.
    + destruct (linearVelocities st !! n) eqn:H; [by apply Hk1| by apply Hn1].
    + destruct (angularVelocities st !! n) eqn:H; [by apply Hk2| by apply Hn2].
  - assert (n ∉ (items (linkVels st)).*1) as Hnot.
    { intros [[k m] [-> Hin]]%list_elem_of_fmap. apply elem_of_items in Hin.
      simpl in Hlv. congruence. }
    pose proof (updateLink_fold_absent _ n Hnot
                  (linearVelocities st) (angularVelocities st)) as [Ha1 Ha2].
    split.
    + destruct (linearVelocities st !! n) eqn:H; [by apply Hk1| by apply Ha1].
    + destruct (angularVelocities st !! n) eqn:H; [by apply Hk2| by apply Ha2].
Qed.

(** *** [PreUpdate]: what it leaves alone *)

Lemma afterModelWrites_frame st ecm :
  (∀ m n, LinkByName (afterModelWrites st ecm) m n = LinkByName ecm m n) ∧
  (∀ m, ModelName (afterModelWrites st ecm) m = ModelName ecm m) ∧
  ParentEntity (afterModelWrites st ecm) = ParentEntity ecm ∧
  AngularVelocityCmd (afterModelWrites st ecm) =
    <[model st := angularVelocity st]> (AngularVelocityCmd ecm) ∧
  LinearVelocityCmd (afterModelWrites st ecm) =
    <[model st := linearVelocity st]> (LinearVelocityCmd ecm).
Proof.
  unfold afterModelWrites, writeLinearVelocityCmd, writeAngularVelocityCmd.
  destruct (AngularVelocityCmd ecm !! model st);
    match goal with
    | |- context [match ?x with _ => _ end] => destruct x
    end; done.
Qed.

Lemma PreUpdate_fields info ecm st :
  (PreUpdate info ecm st).1.1 = with_links (links (PreUpdate info ecm st).1.1) st.
Proof.
  unfold PreUpdate. destruct (paused info); simpl; [by destruct st|].
  destruct (linkNames st); simpl; [by destruct st|].
  case_bool_decide; done.
Qed.

Lemma PreUpdate_caches info ecm st :
  linkVels (PreUpdate info ecm st).1.1 = linkVels st ∧
  linearVelocities (PreUpdate info ecm st).1.1 = linearVelocities st ∧
  angularVelocities (PreUpdate info ecm st).1.1 = angularVelocities st ∧
  linearVelocity (PreUpdate info ecm st).1.1 = linearVelocity st ∧
  angularVelocity (PreUpdate info ecm st).1.1 = angularVelocity st ∧
  linkNames (PreUpdate info ecm st).1.1 = linkNames st ∧
  model (PreUpdate info ecm st).1.1 = model st.
Proof. rewrite PreUpdate_fields. done. Qed.

(** *** Link resolution *)

Lemma LinkByName_child ecm m n :
  LinkByName ecm m n ≠ kNullEntity →
  ParentEntity ecm !! LinkByName ecm m n = Some m.
Proof.
  unfold LinkByName.
  destruct (filter _ (Entities ecm)) as [|e l] eqn:Hf; [done|]. intros _.
  assert (e ∈ e :: l) as He by left. rewrite <- Hf in He.
  apply list_elem_of_filter in He. tauto.
Qed.

Lemma resolve_fold_lookup ecm mdl mn names n :
  ∀ lks log,
    (foldl (resolveStep ecm mdl mn) (lks, log) names).1 !! n =
      resolution ecm mdl names lks n.
Proof.
  unfold resolution.
  induction names as [|a names IH]; intros lks log.
  { cbn [foldl fst]. destruct (lks !! n); [done|].
    by rewrite decide_False by apply not_elem_of_nil. }
  change (foldl (resolveStep ecm mdl mn) (lks, log) (a :: names))
    with (foldl (resolveStep ecm mdl mn) (resolveStep ecm mdl mn (lks, log) a) names).
  destruct (resolveStep ecm mdl mn (lks, log) a) as [lks' log'] eqn:Hstep.
  rewrite IH. unfold resolveStep in Hstep; simpl in Hstep.
  destruct (lks !! a) as [ea|] eqn:Ha.
  - simplify_eq. destruct (lks' !! n) eqn:Hn; [done|].
    assert (n ≠ a) by congruence.
    destruct (decide (n ∈ names)) as [Hin|Hin].
    + rewrite (decide_True (P := n ∈ a :: names)); [done|by right].
    + rewrite (decide_False (P := n ∈ a :: names)); [done|].
      intros [?|?]%elem_of_cons; done.
  - case_bool_decide as Hnull; simplify_eq.
    + rewrite map_insert_lookup. destruct (lks !! n) eqn:Hn; [done|].
      destruct (decide (a = n)) as [->|Hne].
      * rewrite (decide_True (P := n ∈ n :: names)) by left.
        by rewrite decide_False.
      * destruct (decide (n ∈ names)) as [Hin|Hin].
        -- rewrite (decide_True (P := n ∈ a :: names)); [done|by right].
        -- rewrite (decide_False (P := n ∈ a :: names)); [done|].
           intros [?|?]%elem_of_cons; done.
    + destruct (lks' !! n) eqn:Hn; [done|].
      destruct (decide (a = n)) as [->|Hne].
      * rewrite (decide_True (P := n ∈ n :: names)) by left.
        assert (LinkByName ecm mdl n = kNullEntity) as Hz.
        { destruct (decide (LinkByName ecm mdl n = kNullEntity)); [done|].
          by exfalso. }
        rewrite (decide_True _ _ Hz). by destruct (decide (n ∈ names)).
      * destruct (decide (n ∈ names)) as [Hin|Hin].
        -- rewrite (decide_True (P := n ∈ a :: names)); [done|by right].
        -- rewrite (decide_False (P := n ∈ a :: names)); [done|].
           intros [?|?]%elem_of_cons; done.
Qed.

(** The bindings after a tick, name by name *)
Lemma PreUpdate_links info ecm st n :
  links (PreUpdate info ecm st).1.1 !! n =
    if paused info then links st !! n
    else resolution ecm (model st) (linkNames st) (links st) n.
Proof.
  unfold PreUpdate. destruct (paused info); simpl; [done|].
  fold (afterModelWrites st ecm).
  destruct (afterModelWrites_frame st ecm) as (HL & HM & _).
  destruct (linkNames st) as [|a names] eqn:Hnames.
  { cbn [fst links]. unfold resolution. destruct (links st !! n); [done|].
    by rewrite decide_False by apply not_elem_of_nil. }
  assert (∀ X Y : VelocityControlPrivate * EntityComponentManager * list LogMsg,
            links X.1.1 = links Y.1.1 →
            ∀ b : bool, links (if b then X else Y).1.1 = links X.1.1) as Hif.
  { intros X Y HXY []; done. }
  rewrite Hif by done. cbn [fst links with_links].
  rewrite resolve_fold_lookup. unfold resolution.
  destruct (links st !! n); [done|].
  destruct (decide (n ∈ a :: names)); [|done]. by rewrite HL.
Qed.

(** The resolution loop consults the store only for names that have no
    binding yet. *)
Lemma resolve_fold_agree ecm1 ecm2 mdl mn names :
  ∀ lks log,
    (∀ n, lks !! n = None → LinkByName ecm1 mdl n = LinkByName ecm2 mdl n) →
    foldl (resolveStep ecm1 mdl mn) (lks, log) names =
    foldl (resolveStep ecm2 mdl mn) (lks, log) names.
Proof.
  induction names as [|a names IH]; intros lks log Hagree; [done|].
  change (foldl (resolveStep ecm1 mdl mn) (lks, log) (a :: names))
    with (foldl (resolveStep ecm1 mdl mn) (resolveStep ecm1 mdl mn (lks, log) a) names).
  change (foldl (resolveStep ecm2 mdl mn) (lks, log) (a :: names))
    with (foldl (resolveStep ecm2 mdl mn) (resolveStep ecm2 mdl mn (lks, log) a) names).
  assert (resolveStep ecm1 mdl mn (lks, log) a = resolveStep ecm2 mdl mn (lks, log) a)
    as Hstep.
  { unfold resolveStep; simpl. destruct (lks !! a) eqn:Ha; [done|].
    by rewrite (Hagree a Ha). }
  rewrite <- Hstep.
  destruct (resolveStep ecm1 mdl mn (lks, log) a) as [lks' log'] eqn:H1.
  apply IH. intros n Hn. apply Hagree.
  unfold resolveStep in H1; simpl in H1.
  destruct (lks !! a) eqn:Ha; [by simplify_eq|].
  case_bool_decide; simplify_eq; [|done].
  rewrite map_insert_lookup in Hn. by destruct (lks !! n).
Qed.

(** The console output of the loop over the resolved links does not
    depend on the store. *)
Lemma linkWrite_fold_log st l :
  ∀ ecm1 ecm2 log,
    (foldl (linkWriteStep st) (ecm1, log) l).2 =
    (foldl (linkWriteStep st) (ecm2, log) l).2.
Proof.
  induction l as [|[n e] l IH]; intros ecm1 ecm2 log; [done|].
  simpl. unfold linkWriteStep at 2 4; simpl.
  destruct (angularVelocities st !! n), (linearVelocities st !! n); simpl; apply IH.
Qed.

(** Two stores that give the model the same name and agree on
    [LinkByName] for the names still unresolved lead [PreUpdate] to the
    same plugin state and the same console output. *)
Lemma PreUpdate_agree info ecm1 ecm2 st :
  ModelName ecm1 (model st) = ModelName ecm2 (model st) →
  (∀ n, links st !! n = None →
        LinkByName ecm1 (model st) n = LinkByName ecm2 (model st) n) →
  (PreUpdate info ecm1 st).1.1 = (PreUpdate info ecm2 st).1.1 ∧
  (PreUpdate info ecm1 st).2 = (PreUpdate info ecm2 st).2.
Proof.
  intros Hname Hagree. unfold PreUpdate. destruct (paused info); [done|].
  fold (afterModelWrites st ecm1). fold (afterModelWrites st ecm2).
  destruct (afterModelWrites_frame st ecm1) as (HL1 & HM1 & _).
  destruct (afterModelWrites_frame st ecm2) as (HL2 & HM2 & _).
  destruct (linkNames st) as [|a names]; [done|].
  rewrite HM1, HM2, Hname.
  rewrite (resolve_fold_agree (afterModelWrites st ecm1) (afterModelWrites st ecm2)).
  2:{ intros n Hn. rewrite HL1, HL2. by apply Hagree. }
  case_bool_decide; [done|]. simpl. split; [done|]. apply linkWrite_fold_log.
Qed.

(** *** The console output is threaded through the loops *)

Lemma resolve_fold_log ecm mdl mn names log0 :
  ∀ lks log,
    foldl (resolveStep ecm mdl mn) (lks, log0 ++ log) names =
    ((foldl (resolveStep ecm mdl mn) (lks, log) names).1,
     log0 ++ (foldl (resolveStep ecm mdl mn) (lks, log) names).2).
Proof.
  induction names as [|a names IH]; intros lks log; [done|].
  simpl. unfold resolveStep at 2 4 6; simpl.
  destruct (lks !! a); [apply IH|].
  case_bool_decide; [apply IH|]. rewrite <- app_assoc. apply IH.
Qed.

Lemma linkWrite_fold_threads st l log0 :
  ∀ ecm log,
    foldl (linkWriteStep st) (ecm, log0 ++ log) l =
    ((foldl (linkWriteStep st) (ecm, log) l).1,
     log0 ++ (foldl (linkWriteStep st) (ecm, log) l).2).
Proof.
  induction l as [|[n e] l IH]; intros ecm log; [done|].
  simpl. unfold linkWriteStep at 2 4 6; simpl.
  destruct (angularVelocities st !! n), (linearVelocities st !! n); simpl;
    rewrite <- ?app_assoc; apply IH.
Qed.

Lemma resolve_fold_log_keeps ecm mdl mn names x :
  ∀ lks log, x ∈ log → x ∈ (foldl (resolveStep ecm mdl mn) (lks, log) names).2.
Proof.
  induction names as [|a names IH]; intros lks log Hx; [done|].
  simpl. unfold resolveStep at 2; simpl.
  destruct (lks !! a); [by apply IH|].
  case_bool_decide; apply IH; [done|]. apply elem_of_app. by left.
Qed.

Lemma linkWrite_fold_log_keeps st l x :
  ∀ ecm log, x ∈ log → x ∈ (foldl (linkWriteStep st) (ecm, log) l).2.
Proof.
  induction l as [|[n e] l IH]; intros ecm log Hx; [done|].
  simpl. unfold linkWriteStep at 2; simpl.
  destruct (angularVelocities st !! n), (linearVelocities st !! n); simpl;
    apply IH; rewrite ?elem_of_app; tauto.
Qed.

(** A name that is looked up and not found is reported. *)
Lemma resolve_fold_warns ecm mdl mn names n :
  ∀ lks log,
    lks !! n = None → n ∈ names → LinkByName ecm mdl n = kNullEntity →
    WarnFailedToFindLink n mn ∈ (foldl (resolveStep ecm mdl mn) (lks, log) names).2.
Proof.
  induction names as [|a names IH]; intros lks log Hn Hin Hnull.
  { by apply elem_of_nil in Hin. }
  simpl. unfold resolveStep at 2; simpl.
  destruct (decide (a = n)) as [->|Hne].
  - rewrite Hn, Hnull. rewrite bool_decide_false by (intros H; by apply H).
    apply resolve_fold_log_keeps. apply elem_of_app. right. left.
  - apply elem_of_cons in Hin as [->|Hin]; [done|].
    destruct (lks !! a) eqn:Ha; [by apply IH|].
    case_bool_decide; apply IH; try done.
    rewrite map_insert_lookup, Hn. by rewrite decide_False.
Qed.

(** *** The writes of [PreUpdate] *)

Lemma linkWriteStep_other st m acc item :
  item.2 ≠ m →
  AngularVelocityCmd (linkWriteStep st acc item).1 !! m =
    AngularVelocityCmd acc.1 !! m ∧
  LinearVelocityCmd (linkWriteStep st acc item).1 !! m =
    LinearVelocityCmd acc.1 !! m.
Proof.
  intros Hne. unfold linkWriteStep, writeAngularVelocityCmd, writeLinearVelocityCmd.
  destruct (angularVelocities st !! item.1), (linearVelocities st !! item.1); simpl;
    repeat match goal with
           | |- context [match ?x !! ?k with _ => _ end] => destruct (x !! k)
           end; simpl; rewrite ?lookup_insert_ne by done; done.
Qed.

Lemma linkWrite_fold_other st m l :
  (∀ item, item ∈ l → item.2 ≠ m) →
  ∀ acc,
    AngularVelocityCmd (foldl (linkWriteStep st) acc l).1 !! m =
      AngularVelocityCmd acc.1 !! m ∧
    LinearVelocityCmd (foldl (linkWriteStep st) acc l).1 !! m =
      LinearVelocityCmd acc.1 !! m.
Proof.
  induction l as [|item l IH]; intros Hl acc; [done|].
  change (foldl (linkWriteStep st) acc (item :: l))
    with (foldl (linkWriteStep st) (linkWriteStep st acc item) l).
  destruct (IH (λ i Hi, Hl i (list_elem_of_further _ _ _ Hi))
               (linkWriteStep st acc item)) as [-> ->].
  apply linkWriteStep_other, Hl. left.
Qed.

(** On an unpaused tick the model's two command components hold the
    cached model target when [PreUpdate] returns. *)
Lemma PreUpdate_model_cmds info ecm st :
  paused info = false → model_not_a_link st ecm →
  AngularVelocityCmd (PreUpdate info ecm st).1.2 !! model st =
    Some (angularVelocity st) ∧
  LinearVelocityCmd (PreUpdate info ecm st).1.2 !! model st =
    Some (linearVelocity st).
Proof.
  intros Hp [Hlinks Hparent]. unfold PreUpdate. rewrite Hp.
  fold (afterModelWrites st ecm).
  destruct (afterModelWrites_frame st ecm) as (HL & HM & HP & HA & HV).
  assert (AngularVelocityCmd (afterModelWrites st ecm) !! model st =
            Some (angularVelocity st) ∧
          LinearVelocityCmd (afterModelWrites st ecm) !! model st =
            Some (linearVelocity st)) as Hbase.
  { rewrite HA, HV. by rewrite !lookup_insert_eq. }
  destruct (linkNames st) as [|a names] eqn:Hnames; [done|].
  case_bool_decide as Hempty; [done|].
  cbn [fst snd links with_links angularVelocities linearVelocities].
  match goal with
  | |- context [foldl (linkWriteStep ?s) ?a0 ?l] =>
      pose proof (λ H, linkWrite_fold_other s (model st) l H a0) as Hw
  end.
  destruct Hw as [-> ->]; [|exact Hbase].
  intros [n e] Hin. apply elem_of_items in Hin. simpl.
  rewrite resolve_fold_lookup in Hin. unfold resolution in Hin.
  destruct (links st !! n) as [e'|] eqn:Hn.
  { simplify_eq. by eapply Hlinks. }
  destruct (decide (n ∈ a :: names)); [|done].
  destruct (decide (LinkByName (afterModelWrites st ecm) (model st) n = kNullEntity))
    as [|Hnz]; [done|].
  simplify_eq. intros Heq. apply LinkByName_child in Hnz.
  rewrite Heq, HP in Hnz. done.
Qed.

(** *** Runs *)

Lemma step_links st ev n e :
  links st !! n = Some e → links (step st ev) !! n = Some e.
Proof.
  intros H. destruct ev as [msg|msg i|info ecm|info ecm]; simpl; try done.
  - rewrite PreUpdate_links. destruct (paused info); [done|].
    unfold resolution. by rewrite H.
  - unfold PostUpdate. by destruct (paused info).
Qed.

Lemma run_links evs : ∀ st n e,
  links st !! n = Some e → links (run evs st) !! n = Some e.
Proof.
  unfold run. induction evs as [|ev evs IH]; intros st n e H; [done|].
  simpl. by apply IH, step_links.
Qed.

Lemma PostUpdate_lookup info ecm st n :
  linkVels (PostUpdate info ecm st) = linkVels st ∧
  linearVelocities (PostUpdate info ecm st) !! n =
    (if paused info then linearVelocities st !! n
     else match linearVelocities st !! n with
          | Some v => Some v
          | None => msgs.linear <$> linkVels st !! n
          end) ∧
  angularVelocities (PostUpdate info ecm st) !! n =
    (if paused info then angularVelocities st !! n
     else match angularVelocities st !! n with
          | Some v => Some v
          | None => msgs.angular <$> linkVels st !! n
          end).
Proof.
  unfold PostUpdate. destruct (paused info); [done|].
  destruct (UpdateLinkVelocity_lookup (UpdateVelocity st) n) as [H1 H2].
  split; [done|]. split; [exact H1|exact H2].
Qed.

(** Every event keeps the entries the three per-link maps hold. *)
Lemma step_keeps st ev n :
  (∀ m, linkVels st !! n = Some m → linkVels (step st ev) !! n = Some m) ∧
  (∀ v, linearVelocities st !! n = Some v →
        linearVelocities (step st ev) !! n = Some v) ∧
  (∀ v, angularVelocities st !! n = Some v →
        angularVelocities (step st ev) !! n = Some v).
Proof.
  destruct ev as [msg|msg i|info ecm|info ecm]; simpl.
  - done.
  - split; [|done]. intros m. apply OnLinkCmdVel_fold_keeps.
  - destruct (PreUpdate_caches info ecm st) as (-> & -> & -> & _). done.
  - destruct (PostUpdate_lookup info ecm st n) as (-> & -> & ->).
    split; [done|]. split; intros v Hv; rewrite Hv; by destruct (paused info).
Qed.

Lemma run_keeps evs : ∀ st n,
  (∀ m, linkVels st !! n = Some m → linkVels (run evs st) !! n = Some m) ∧
  (∀ v, linearVelocities st !! n = Some v →
        linearVelocities (run evs st) !! n = Some v) ∧
  (∀ v, angularVelocities st !! n = Some v →
        angularVelocities (run evs st) !! n = Some v).
Proof.
  unfold run. induction evs as [|ev evs IH]; intros st n; [done|].
  simpl. destruct (IH (step st ev) n) as (H1 & H2 & H3).
  destruct (step_keeps st ev n) as (K1 & K2 & K3).
  repeat split; eauto.
Qed.

Lemma step_derived st ev : derived_from_buffer st → derived_from_buffer (step st ev).
Proof.
  intros Hd n. destruct (Hd n) as [Hl Ha].
  destruct (step_keeps st ev n) as (K1 & _ & _).
  destruct ev as [msg|msg i|info ecm|info ecm].
  - exact (Hd n).
  - split; intros v Hv; [destruct (Hl v Hv) as (m & Hm & ->)
                        |destruct (Ha v Hv) as (m & Hm & ->)];
      exists m; split; try done; by apply K1.
  - simpl. destruct (PreUpdate_caches info ecm st) as (-> & -> & -> & _).
    exact (Hd n).
  - simpl. destruct (PostUpdate_lookup info ecm st n) as (-> & -> & ->).
    destruct (paused info); [exact (Hd n)|].
    split; intros v Hv.
    + destruct (linearVelocities st !! n) eqn:E; [simplify_eq; by apply Hl|].
      destruct (linkVels st !! n) as [m|]; [|done]. simpl in Hv. simplify_eq. eauto.
    + destruct (angularVelocities st !! n) eqn:E; [simplify_eq; by apply Ha|].
      destruct (linkVels st !! n) as [m|]; [|done]. simpl in Hv. simplify_eq. eauto.
Qed.

Lemma run_derived evs : ∀ st, derived_from_buffer st → derived_from_buffer (run evs st).
Proof.
  unfold run. induction evs as [|ev evs IH]; intros st Hd; [done|].
  simpl. by apply IH, step_derived.
Qed.

Lemma resolve_fold_log_nil ecm mdl mn names log0 lks :
  foldl (resolveStep ecm mdl mn) (lks, log0) names =
  ((foldl (resolveStep ecm mdl mn) (lks, []) names).1,
   log0 ++ (foldl (resolveStep ecm mdl mn) (lks, []) names).2).
Proof. rewrite <- resolve_fold_log. by rewrite app_nil_r. Qed.

(** *** Main results *)

(** C2 (the code on two messages for one link).  With the link "arm"
    declared, two messages are published on its channel before the next
    tick.  The buffer keeps the first one ([std::map::insert] does not
    overwrite), and after [PostUpdate] and [PreUpdate] the link's
    velocity-command components hold the first message's values. *)
Theorem C2_second_link_message_is_dropped :
  let st0 := configured ["arm"%string] in
  let ch := "/model/m/link/arm/cmd_vel"%string in
  let st1 := deliver ch (twist 2 2) (deliver ch (twist 1 1) st0) in
  let r := PreUpdate unpaused robot (PostUpdate unpaused robot st1) in
  node st0 = [("/model/m/cmd_vel"%string, CbOnCmdVel); (ch, CbOnLinkCmdVel)] ∧
  linkVels st1 !! "arm"%string = Some (twist 1 1) ∧
  links r.1.1 !! "arm"%string = Some 3 ∧
  LinearVelocityCmd r.1.2 !! 3 = Some (math.Vector3 1 0 0) ∧
  AngularVelocityCmd r.1.2 !! 3 = Some (math.Vector3 0 0 1).
Proof. repeat split; vm_compute; reflexivity. Qed.

(** C6 (the code on overlapping link names).  With the links "arm" and
    "arm_extra" declared, one message on the channel of "arm_extra" is
    stored for "arm" as well, because the callback looks for the link
    name anywhere in the channel name; handed the same channel name with
    only "arm" declared, the callback stores the message for "arm" too. *)
Theorem C6_substring_match_crosses_links :
  let ch := "/model/m/link/arm_extra/cmd_vel"%string in
  let st2 := deliver ch (twist 5 5) (configured ["arm"; "arm_extra"]%string) in
  let st1 := OnLinkCmdVel (twist 5 5) {| Topic := ch |} (configured ["arm"%string]) in
  linkVels (configured ["arm"; "arm_extra"]%string) !! "arm"%string = None ∧
  linkVels st2 !! "arm"%string = Some (twist 5 5) ∧
  linkVels st2 !! "arm_extra"%string = Some (twist 5 5) ∧
  linearVelocities (PostUpdate unpaused robot st2) !! "arm"%string =
    Some (math.Vector3 5 0 0) ∧
  linkVels st1 !! "arm"%string = Some (twist 5 5).
Proof. repeat split; vm_compute; reflexivity. Qed.

(** C4.  Once the message linear (1,0,0), angular (0,0,2) has been
    received on the model channel and an unpaused [PostUpdate] and then
    an unpaused [PreUpdate] have run, the model's linear and angular
    velocity-command components are (1,0,0) and (0,0,2).  More generally
    every unpaused [PreUpdate] leaves the cached model target in the two
    components (created or overwritten) and keeps the cache, whether or
    not a message arrived: a message received since the last
    [PostUpdate] does not change what is written. *)
Theorem C4_model_target_written_every_tick st ecm infoPost infoPre :
  paused infoPost = false → paused infoPre = false →
  model_not_a_link st ecm →
  (let msg := {| msgs.linear := math.Vector3 1 0 0;
                 msgs.angular := math.Vector3 0 0 2 |} in
   let r := PreUpdate infoPre ecm (PostUpdate infoPost ecm (OnCmdVel msg st)) in
   LinearVelocityCmd r.1.2 !! model st = Some (math.Vector3 1 0 0) ∧
   AngularVelocityCmd r.1.2 !! model st = Some (math.Vector3 0 0 2)) ∧
  (let r := PreUpdate infoPre ecm st in
   LinearVelocityCmd r.1.2 !! model st = Some (linearVelocity st) ∧
   AngularVelocityCmd r.1.2 !! model st = Some (angularVelocity st) ∧
   linearVelocity r.1.1 = linearVelocity st ∧
   angularVelocity r.1.1 = angularVelocity st) ∧
  (∀ msg',
     let r := PreUpdate infoPre ecm (OnCmdVel msg' st) in
     LinearVelocityCmd r.1.2 !! model st = Some (linearVelocity st) ∧
     AngularVelocityCmd r.1.2 !! model st = Some (angularVelocity st)).
Proof.
  intros Hpost Hpre Hnl. split; [|split].
  - cbn zeta.
    set (st1 := PostUpdate infoPost ecm (OnCmdVel _ st)).
    assert (model st1 = model st ∧ links st1 = links st ∧
            linearVelocity st1 = math.Vector3 1 0 0 ∧
            angularVelocity st1 = math.Vector3 0 0 2) as (Hm & Hl & Hlin & Hang).
    { subst st1. unfold PostUpdate. rewrite Hpost. done. }
    destruct (PreUpdate_model_cmds infoPre ecm st1 Hpre) as [Ha Hv].
    { unfold model_not_a_link. rewrite Hm, Hl. exact Hnl. }
    rewrite Hm in Ha, Hv. by rewrite Ha, Hv, Hlin, Hang.
  - cbn zeta.
    destruct (PreUpdate_model_cmds infoPre ecm st Hpre Hnl) as [Ha Hv].
    destruct (PreUpdate_caches infoPre ecm st) as (_ & _ & _ & Hlin & Hang & _).
    done.
  - intros msg'. cbn zeta.
    destruct (PreUpdate_model_cmds infoPre ecm (OnCmdVel msg' st) Hpre Hnl)
      as [Ha Hv].
    done.
Qed.

Lemma C4_model_target_written_every_tick_witness :
  (let msg := {| msgs.linear := math.Vector3 1 0 0;
                 msgs.angular := math.Vector3 0 0 2 |} in
   let r := PreUpdate unpaused robot
              (PostUpdate unpaused robot (OnCmdVel msg (configured ["arm"%string]))) in
   LinearVelocityCmd r.1.2 !! 2 = Some (math.Vector3 1 0 0) ∧
   AngularVelocityCmd r.1.2 !! 2 = Some (math.Vector3 0 0 2)) ∧
  (let r := PreUpdate unpaused robot (configured ["arm"%string]) in
   LinearVelocityCmd r.1.2 !! 2 = Some math.Zero ∧
   AngularVelocityCmd r.1.2 !! 2 = Some math.Zero ∧
   linearVelocity r.1.1 = math.Zero ∧
   angularVelocity r.1.1 = math.Zero) ∧
  (∀ msg',
     let r := PreUpdate unpaused robot (OnCmdVel msg' (configured ["arm"%string])) in
     LinearVelocityCmd r.1.2 !! 2 = Some math.Zero ∧
     AngularVelocityCmd r.1.2 !! 2 = Some math.Zero).
Proof.
  apply (C4_model_target_written_every_tick (configured ["arm"%string]) robot
           unpaused unpaused).
  - reflexivity.
  - reflexivity.
  - split.
    + intros n e H. vm_compute in H. discriminate H.
    + vm_compute. intros H. discriminate H.
Defined.

(** C5 (as stated, refuted).  A tick whose [dt] is negative and which is
    not paused writes the model's velocity commands all the same; the
    backward step is only reported. *)
Lemma C5_backward_time_tick_still_writes :
  let info := {| dt := -2000000000; paused := false |} in
  let st := PostUpdate unpaused robot (OnCmdVel (twist 1 2) (configured [])) in
  let r := PreUpdate info robot st in
  LinearVelocityCmd robot !! 2 = None ∧
  AngularVelocityCmd robot !! 2 = None ∧
  LinearVelocityCmd r.1.2 !! 2 = Some (math.Vector3 1 0 0) ∧
  AngularVelocityCmd r.1.2 !! 2 = Some (math.Vector3 0 0 2) ∧
  r.2 = [WarnJumpBack (-2)].
Proof. repeat split; vm_compute; reflexivity. Qed.

(** C5 (amended).  A paused [PreUpdate] changes neither the plugin state
    nor the store, whatever [dt] is.  A negative [dt] only adds the
    jump-back warning to the console output: an unpaused tick returns
    the state and the store that the same tick with [dt = 0] returns. *)
Theorem C5_paused_tick_is_noop_negative_dt_only_warns info ecm st :
  PreUpdate info ecm st =
    (if paused info then (st, ecm, jumpBackWarning info)
     else
       let r := PreUpdate {| dt := 0; paused := false |} ecm st in
       (r.1, jumpBackWarning info ++ r.2)) ∧
  (dt info < 0 → jumpBackWarning info = [WarnJumpBack (dt info ÷ 1000000000)]) ∧
  (0 ≤ dt info → jumpBackWarning info = []).
Proof.
  split.
  - unfold PreUpdate. destruct (paused info); [done|].
    cbn [paused].
    change (jumpBackWarning {| dt := 0; paused := false |}) with (@nil LogMsg).
    fold (afterModelWrites st ecm).
    destruct (linkNames st) as [|a names]; cbn zeta.
    { by rewrite app_nil_r. }
    rewrite (resolve_fold_log_nil _ _ _ _ (jumpBackWarning info)).
    cbn [fst snd].
    case_bool_decide; [done|].
    rewrite linkWrite_fold_threads. done.
  - unfold jumpBackWarning. split; intros Hdt.
    + by rewrite bool_decide_true.
    + rewrite bool_decide_false; [done|lia].
Qed.

(** C8.  The binding of a configured link name is a one-way state
    machine.  After a tick the binding of [n] is: the old one if there
    was one; otherwise, on an unpaused tick and for a configured name,
    the entity [LinkByName] finds, if it finds one; otherwise none.  A
    binding survives every later callback and tick.  A tick consults the
    store only for names without a binding: two stores that agree on
    those lead to the same state and output.  A configured name that the
    lookup does not find is reported and stays unbound, to be looked up
    again by the next unpaused tick. *)
Theorem C8_link_resolution_is_one_way info ecm st n :
  links (PreUpdate info ecm st).1.1 !! n =
    match links st !! n with
    | Some e => Some e
    | None =>
        if paused info then None
        else if decide (n ∈ linkNames st) then
          if decide (LinkByName ecm (model st) n = kNullEntity) then None
          else Some (LinkByName ecm (model st) n)
        else None
    end ∧
  (∀ e evs, links st !! n = Some e → links (run evs st) !! n = Some e) ∧
  (∀ ecm2,
     ModelName ecm2 (model st) = ModelName ecm (model st) →
     (∀ n', links st !! n' = None →
            LinkByName ecm2 (model st) n' = LinkByName ecm (model st) n') →
     (PreUpdate info ecm2 st).1.1 = (PreUpdate info ecm st).1.1 ∧
     (PreUpdate info ecm2 st).2 = (PreUpdate info ecm st).2) ∧
  (links st !! n = None → paused info = false → n ∈ linkNames st →
   LinkByName ecm (model st) n = kNullEntity →
   WarnFailedToFindLink n (ModelName ecm (model st)) ∈ (PreUpdate info ecm st).2).
Proof.
  split; [|split; [|split]].
  - rewrite PreUpdate_links. unfold resolution.
    destruct (paused info); by destruct (links st !! n).
  - intros e evs. apply run_links.
  - intros ecm2 Hname Hagree. by apply PreUpdate_agree.
  - intros Hn Hp Hin Hnull. unfold PreUpdate. rewrite Hp.
    fold (afterModelWrites st ecm).
    destruct (afterModelWrites_frame st ecm) as (HL & HM & _).
    destruct (linkNames st) as [|a names] eqn:Hnames.
    { by apply elem_of_nil in Hin. }
    assert (WarnFailedToFindLink n (ModelName ecm (model st)) ∈
              (foldl (resolveStep (afterModelWrites st ecm) (model st)
                        (ModelName (afterModelWrites st ecm) (model st)))
                     (links st, jumpBackWarning info) (a :: names)).2) as Hw.
    { rewrite HM. apply resolve_fold_warns; try done. by rewrite HL. }
    case_bool_decide; [exact Hw|].
    cbn [snd]. by apply linkWrite_fold_log_keeps.
Qed.

Lemma C8_link_resolution_is_one_way_witness :
  links (PreUpdate unpaused robot (configured ["arm"; "leg"]%string)).1.1
    !! "arm"%string = Some 3 ∧
  links (configured ["arm"; "leg"]%string) !! "leg"%string = None ∧
  WarnFailedToFindLink "leg" "m" ∈
    (PreUpdate unpaused robot (configured ["arm"; "leg"]%string)).2.
Proof.
  pose proof (C8_link_resolution_is_one_way unpaused robot
                (configured ["arm"; "leg"]%string) "arm"%string) as (H1 & _).
  pose proof (C8_link_resolution_is_one_way unpaused robot
                (configured ["arm"; "leg"]%string) "leg"%string) as (_ & _ & _ & H4).
  split; [rewrite H1; vm_compute; reflexivity|].
  split; [vm_compute; reflexivity|].
  apply H4.
  - vm_compute; reflexivity.
  - reflexivity.
  - right. left.
  - vm_compute; reflexivity.
Defined.

(** C10.  The three per-link maps are insert-only.  Once the buffer holds
    a message [m] for link [n], no callback and no tick changes or
    removes that entry; entries of the two target maps are never changed
    either; whatever target the link has is the one derived from [m];
    and every unpaused [PostUpdate] leaves exactly that target. *)
Theorem C10_link_caches_are_insert_only evs st n m :
  derived_from_buffer st →
  linkVels st !! n = Some m →
  linkVels (run evs st) !! n = Some m ∧
  (∀ v, linearVelocities st !! n = Some v →
        linearVelocities (run evs st) !! n = Some v) ∧
  (∀ v, angularVelocities st !! n = Some v →
        angularVelocities (run evs st) !! n = Some v) ∧
  (∀ v, linearVelocities (run evs st) !! n = Some v → v = msgs.linear m) ∧
  (∀ v, angularVelocities (run evs st) !! n = Some v → v = msgs.angular m) ∧
  (∀ info ecm, paused info = false →
     linearVelocities (PostUpdate info ecm (run evs st)) !! n =
       Some (msgs.linear m) ∧
     angularVelocities (PostUpdate info ecm (run evs st)) !! n =
       Some (msgs.angular m)).
Proof.
  intros Hd Hm.
  destruct (run_keeps evs st n) as (K1 & K2 & K3).
  pose proof (K1 m Hm) as Hm'.
  destruct (run_derived evs st Hd n) as [Dl Da].
  assert (∀ v, linearVelocities (run evs st) !! n = Some v → v = msgs.linear m)
    as Hlin.
  { intros v Hv. destruct (Dl v Hv) as (m' & Hm'' & ->). congruence. }
  assert (∀ v, angularVelocities (run evs st) !! n = Some v → v = msgs.angular m)
    as Hang.
  { intros v Hv. destruct (Da v Hv) as (m' & Hm'' & ->). congruence. }
  repeat split; try done.
  - destruct (PostUpdate_lookup info ecm (run evs st) n) as (_ & -> & _).
    rewrite H, Hm'.
    destruct (linearVelocities (run evs st) !! n) as [v|]; [|done].
    by rewrite (Hlin v eq_refl).
  - destruct (PostUpdate_lookup info ecm (run evs st) n) as (_ & _ & ->).
    rewrite H, Hm'.
    destruct (angularVelocities (run evs st) !! n) as [v|]; [|done].
    by rewrite (Hang v eq_refl).
Qed.

Lemma C10_link_caches_are_insert_only_witness :
  let ch := {| Topic := "/model/m/link/arm/cmd_vel" |} in
  let st := OnLinkCmdVel (twist 1 1) ch (configured ["arm"%string]) in
  let evs := [EvLinkCmdVel (twist 2 2) ch; EvPostUpdate unpaused robot;
              EvLinkCmdVel (twist 3 3) ch; EvPreUpdate unpaused robot;
              EvPostUpdate unpaused robot] in
  linkVels (run evs st) !! "arm"%string = Some (twist 1 1) ∧
  (∀ v, linearVelocities st !! "arm"%string = Some v →
        linearVelocities (run evs st) !! "arm"%string = Some v) ∧
  (∀ v, angularVelocities st !! "arm"%string = Some v →
        angularVelocities (run evs st) !! "arm"%string = Some v) ∧
  (∀ v, linearVelocities (run evs st) !! "arm"%string = Some v →
        v = msgs.linear (twist 1 1)) ∧
  (∀ v, angularVelocities (run evs st) !! "arm"%string = Some v →
        v = msgs.angular (twist 1 1)) ∧
  (∀ info ecm, paused info = false →
     linearVelocities (PostUpdate info ecm (run evs st)) !! "arm"%string =
       Some (msgs.linear (twist 1 1)) ∧
     angularVelocities (PostUpdate info ecm (run evs st)) !! "arm"%string =
       Some (msgs.angular (twist 1 1))).
Proof.
  intros ch st evs.
  apply (C10_link_caches_are_insert_only evs st "arm"%string (twist 1 1)).
  - intros k. split; intros v Hv; vm_compute in Hv; discriminate Hv.
  - vm_compute; reflexivity.
Defined.

(** *** Further properties of [Configure] *)

Lemma push_linkName_fold names :
  ∀ st,
    foldl (λ st n, push_linkName n st) st names =
    {| node := node st; model := model st;
       angularVelocity := angularVelocity st; linearVelocity := linearVelocity st;
       targetVel := targetVel st; linkNames := linkNames st ++ names;
       links := links st; angularVelocities := angularVelocities st;
       linearVelocities := linearVelocities st; linkVels := linkVels st |}.
Proof.
  induction names as [|a names IH]; intros st.
  { cbn [foldl]. rewrite app_nil_r. by destruct st. }
  cbn [foldl]. rewrite IH. simpl. by rewrite <- app_assoc.
Qed.

Lemma subscribe_fold ecm names :
  ∀ st log,
    foldl (λ '(st, log) linkName,
             let linkTopic :=
               ("/model/" ++ ModelName ecm (model st) ++ "/link/"
                  ++ linkName ++ "/cmd_vel")%string in
             (Subscribe linkTopic CbOnLinkCmdVel st,
              log ++ [MsgSubscribing linkTopic]))
          (st, log) names =
    ({| node := node st ++
                ((λ n, (linkTopic ecm (model st) n, CbOnLinkCmdVel)) <$> names);
        model := model st;
        angularVelocity := angularVelocity st; linearVelocity := linearVelocity st;
        targetVel := targetVel st; linkNames := linkNames st;
        links := links st; angularVelocities := angularVelocities st;
        linearVelocities := linearVelocities st; linkVels := linkVels st |},
     log ++ ((λ n, MsgSubscribing (linkTopic ecm (model st) n)) <$> names)).
Proof.
  induction names as [|a names IH]; intros st log.
  { cbn [foldl fmap list_fmap]. rewrite !app_nil_r. by destruct st. }
  cbn [foldl]. rewrite IH. simpl. by rewrite <- !app_assoc.
Qed.

(** X7.  On a valid model [Configure] subscribes the model callback to
    the configured topic, or to [/model/<name>/cmd_vel] when none is
    given, and the link callback to
    [/model/<name>/link/<link>/cmd_vel] for each configured link name, in
    the order of the configuration; it records the model and the link
    names, announces every channel, and leaves targets, buffers and
    bindings empty. *)
Theorem X7_Configure_subscriptions _entity _sdf ecm :
  Valid ecm _entity = true →
  Configure _entity _sdf ecm VelocityControlPrivate_init =
    ({| node := (modelTopic _sdf ecm _entity, CbOnCmdVel)
                :: ((λ n, (linkTopic ecm _entity n, CbOnLinkCmdVel))
                      <$> link_name _sdf);
        model := _entity;
        angularVelocity := math.Zero; linearVelocity := math.Zero;
        targetVel := msgs.Twist_default; linkNames := link_name _sdf;
        links := ∅; angularVelocities := ∅; linearVelocities := ∅;
        linkVels := ∅ |},
     MsgSubscribing (modelTopic _sdf ecm _entity)
     :: ((λ n, MsgSubscribing (linkTopic ecm _entity n)) <$> link_name _sdf)).
Proof.
  intros Hv. unfold Configure. cbn [with_model model]. rewrite Hv. cbn [negb].
  destruct (link_name _sdf) as [|a names] eqn:Hnames; [done|].
  rewrite push_linkName_fold. cbn [linkNames Subscribe with_model node app model].
  rewrite subscribe_fold. done.
Qed.

Lemma X7_Configure_subscriptions_witness :
  Configure 2 {| topic := Some "cmd"%string; link_name := ["arm"%string] |} robot
            VelocityControlPrivate_init =
    ({| node := [("cmd"%string, CbOnCmdVel);
                 ("/model/m/link/arm/cmd_vel"%string, CbOnLinkCmdVel)];
        model := 2;
        angularVelocity := math.Zero; linearVelocity := math.Zero;
        targetVel := msgs.Twist_default; linkNames := ["arm"%string];
        links := ∅; angularVelocities := ∅; linearVelocities := ∅;
        linkVels := ∅ |},
     [MsgSubscribing "cmd"; MsgSubscribing "/model/m/link/arm/cmd_vel"]).
Proof.
  apply (X7_Configure_subscriptions 2
           {| topic := Some "cmd"%string; link_name := ["arm"%string] |} robot).
  vm_compute; reflexivity.
Defined.

(** X8.  On an entity that is not a model [Configure] only reports the
    error: nothing is subscribed and no link name is recorded.  The
    system is not inert afterwards: every unpaused [PreUpdate] still
    writes the (zero) model target into the velocity commands of that
    entity, and changes nothing in the plugin state. *)
Theorem X8_Configure_on_non_model _entity _sdf ecm :
  Valid ecm _entity = false →
  Configure _entity _sdf ecm VelocityControlPrivate_init =
    (with_model _entity VelocityControlPrivate_init, [ErrNotAModel]) ∧
  ∀ info ecm',
    paused info = false →
    let r := PreUpdate info ecm' (with_model _entity VelocityControlPrivate_init) in
    r.1.1 = with_model _entity VelocityControlPrivate_init ∧
    AngularVelocityCmd r.1.2 !! _entity = Some math.Zero ∧
    LinearVelocityCmd r.1.2 !! _entity = Some math.Zero.
Proof.
  intros Hv. split.
  - unfold Configure. cbn [with_model model]. by rewrite Hv.
  - intros info ecm' Hp.
    set (st0 := with_model _entity VelocityControlPrivate_init).
    assert (PreUpdate info ecm' st0 =
              (st0, afterModelWrites st0 ecm', jumpBackWarning info)) as ->.
    { unfold PreUpdate. rewrite Hp. reflexivity. }
    cbn zeta. cbn [fst snd].
    destruct (afterModelWrites_frame st0 ecm') as (_ & _ & _ & HA & HL).
    rewrite HA, HL. subst st0. simpl. by rewrite !lookup_insert_eq.
Qed.

Lemma X8_Configure_on_non_model_witness :
  Configure 3 {| topic := None; link_name := ["arm"%string] |} robot
            VelocityControlPrivate_init =
    (with_model 3 VelocityControlPrivate_init, [ErrNotAModel]) ∧
  ∀ info ecm',
    paused info = false →
    let r := PreUpdate info ecm' (with_model 3 VelocityControlPrivate_init) in
    r.1.1 = with_model 3 VelocityControlPrivate_init ∧
    AngularVelocityCmd r.1.2 !! 3 = Some math.Zero ∧
    LinearVelocityCmd r.1.2 !! 3 = Some math.Zero.
Proof.
  apply (X8_Configure_on_non_model 3
           {| topic := None; link_name := ["arm"%string] |} robot).
  vm_compute; reflexivity.
Defined.

(** *** Further properties of the callbacks and of [PostUpdate] *)

Lemma step_targetVel st ev :
  targetVel (step st ev) =
    match ev with
    | EvCmdVel msg => msg
    | _ => targetVel st
    end.
Proof.
  destruct ev as [msg|msg i|info ecm|info ecm]; simpl; try done.
  - by rewrite PreUpdate_fields.
  - unfold PostUpdate. by destruct (paused info).
Qed.

Lemma run_targetVel evs :
  ∀ st, targetVel (run evs st) = lastCmdVel (targetVel st) evs.
Proof.
  unfold run, lastCmdVel.
  induction evs as [|ev evs IH]; intros st; [done|].
  cbn [foldl]. rewrite IH, step_targetVel. by destruct ev.
Qed.

(** X9.  The model-level buffer always holds the most recent model
    message: over any sequence of callbacks and ticks it is the last
    message [OnCmdVel] received (link messages, [PreUpdate] and
    [PostUpdate] never touch or clear it), and an unpaused [PostUpdate]
    makes its linear and angular vectors the model target. *)
Theorem X9_model_buffer_holds_latest_message evs st info ecm :
  paused info = false →
  targetVel (run evs st) = lastCmdVel (targetVel st) evs ∧
  targetVel (PostUpdate info ecm (run evs st)) = lastCmdVel (targetVel st) evs ∧
  linearVelocity (PostUpdate info ecm (run evs st)) =
    msgs.linear (lastCmdVel (targetVel st) evs) ∧
  angularVelocity (PostUpdate info ecm (run evs st)) =
    msgs.angular (lastCmdVel (targetVel st) evs).
Proof.
  intros Hp. rewrite <- run_targetVel.
  unfold PostUpdate. rewrite Hp. simpl.
  destruct (targetVel (run evs st)) as [[? ? ?] [? ? ?]]. done.
Qed.

Lemma X9_model_buffer_holds_latest_message_witness :
  let evs := [EvCmdVel (twist 1 1);
              EvLinkCmdVel (twist 7 7) {| Topic := "/model/m/link/arm/cmd_vel" |};
              EvCmdVel (twist 2 2); EvPreUpdate unpaused robot] in
  let st := configured ["arm"%string] in
  lastCmdVel (targetVel st) evs = twist 2 2 ∧
  (targetVel (run evs st) = lastCmdVel (targetVel st) evs ∧
   targetVel (PostUpdate unpaused robot (run evs st)) =
     lastCmdVel (targetVel st) evs ∧
   linearVelocity (PostUpdate unpaused robot (run evs st)) =
     msgs.linear (lastCmdVel (targetVel st) evs) ∧
   angularVelocity (PostUpdate unpaused robot (run evs st)) =
     msgs.angular (lastCmdVel (targetVel st) evs)).
Proof.
  intros evs st. split; [vm_compute; reflexivity|].
  apply (X9_model_buffer_holds_latest_message evs st unpaused robot).
  reflexivity.
Defined.

(** [std::string::find] against occurrence *)

Lemma app_String (a : Ascii.ascii) (p q : string) :
  (String a p ++ q)%string = String a (p ++ q)%string.
Proof. reflexivity. Qed.

Lemma app_Empty (q : string) : ("" ++ q)%string = q.
Proof. reflexivity. Qed.

Lemma string_app_assoc (a b c : string) :
  ((a ++ b) ++ c)%string = (a ++ b ++ c)%string.
Proof.
  induction a as [|x a IH]; [done|]. rewrite !app_String. by f_equal.
Qed.

Lemma prefix_app (p s : string) :
  String.prefix p s = true ↔ ∃ post, s = (p ++ post)%string.
Proof.
  revert s. induction p as [|a p IH]; intros s.
  { destruct s; simpl; split; eauto. }
  destruct s as [|b s]; simpl.
  { split; [done|]. intros [post H]. rewrite app_String in H. discriminate H. }
  destruct (Ascii.ascii_dec a b) as [->|Hne].
  - rewrite IH. split; intros [post H]; exists post.
    + rewrite app_String. by f_equal.
    + rewrite app_String in H. by injection H.
  - split; [done|]. intros [post H]. rewrite app_String in H. congruence.
Qed.

Lemma find_occurs (s pat : string) : is_Some (find s pat) ↔ occurs pat s.
Proof.
  split.
  - induction s as [|c s IH]; cbn [find].
    + destruct (String.prefix pat "") eqn:Hp; [|by intros [? ?]].
      intros _. apply prefix_app in Hp as [post Hp]. by exists ""%string, post.
    + destruct (String.prefix pat (String c s)) eqn:Hp.
      * intros _. apply prefix_app in Hp as [post Hp]. by exists ""%string, post.
      * intros [i Hi]. destruct (find s pat) as [j|] eqn:Hj; [|done].
        destruct IH as (pre & post & ->); [by eexists|].
        by exists (String c pre), post.
  - intros (pre & post & ->). induction pre as [|c pre IH].
    + rewrite app_Empty.
      assert (String.prefix pat (pat ++ post) = true) as Hp.
      { apply prefix_app. by exists post. }
      destruct (pat ++ post)%string; cbn [find]; rewrite Hp; by eexists.
    + rewrite app_String. cbn [find].
      destruct (String.prefix pat (String c (pre ++ pat ++ post))); [by eexists|].
      destruct IH as [i ->]. by eexists.
Qed.

Lemma OnLinkCmdVel_fold_lookup (msg : msgs.Twist) (t : string) (n : string)
    (names : list string) :
  ∀ lv : gmap string msgs.Twist,
    foldl (λ lv linkName,
             match find t linkName with
             | Some _ => map_insert linkName msg lv
             | None => lv
             end) lv names !! n =
      match lv !! n with
      | Some m => Some m
      | None =>
          if decide (n ∈ names) then
            match find t n with
            | Some _ => Some msg
            | None => None
            end
          else None
      end.
Proof.
  induction names as [|a names IH]; intros lv.
  { cbn [foldl]. destruct (lv !! n); [done|].
    by rewrite decide_False by apply not_elem_of_nil. }
  cbn [foldl]. rewrite IH.
  destruct (decide (a = n)) as [->|Hne].
  - rewrite (decide_True (P := n ∈ n :: names)) by left.
    destruct (find t n) eqn:Hf.
    + rewrite map_insert_lookup. destruct (lv !! n); [done|].
      by rewrite decide_True.
    + destruct (lv !! n); [done|]. by destruct (decide (n ∈ names)).
  - assert ((match find t a with
             | Some _ => map_insert a msg lv
             | None => lv
             end) !! n = lv !! n) as ->.
    { destruct (find t a); [|done]. rewrite map_insert_lookup.
      destruct (lv !! n); [done|]. by rewrite decide_False. }
    destruct (lv !! n); [done|].
    destruct (decide (n ∈ names)) as [Hin|Hin].
    + rewrite (decide_True (P := n ∈ a :: names)); [done|by right].
    + rewrite (decide_False (P := n ∈ a :: names)); [done|].
      intros [?|?]%elem_of_cons; done.
Qed.

(** X10.  What a link message changes: only the buffer, and in it only
    missing entries.  The message is stored for a link name exactly when
    the buffer holds nothing for it, the name is configured, and the name
    occurs somewhere in the channel name. *)
Theorem X10_OnLinkCmdVel_stores_by_occurrence msg info st n :
  linkVels (OnLinkCmdVel msg info st) !! n =
    match linkVels st !! n with
    | Some m => Some m
    | None =>
        if decide (n ∈ linkNames st) then
          match find (Topic info) n with
          | Some _ => Some msg
          | None => None
          end
        else None
    end ∧
  (is_Some (find (Topic info) n) ↔ occurs n (Topic info)) ∧
  OnLinkCmdVel msg info st = with_linkVels (linkVels (OnLinkCmdVel msg info st)) st.
Proof.
  split; [|split].
  - simpl. apply OnLinkCmdVel_fold_lookup.
  - apply find_occurs.
  - done.
Qed.

Lemma X10_OnLinkCmdVel_stores_by_occurrence_witness :
  let info := {| Topic := "/model/m/link/arm_extra/cmd_vel" |} in
  linkVels (OnLinkCmdVel (twist 1 1) info (configured ["arm"%string]))
    !! "arm"%string = Some (twist 1 1) ∧
  occurs "arm" (Topic info) ∧
  linkVels (OnLinkCmdVel (twist 1 1) info (configured ["arm"%string]))
    !! "arm_extra"%string = None.
Proof.
  intros info.
  destruct (X10_OnLinkCmdVel_stores_by_occurrence (twist 1 1) info
              (configured ["arm"%string]) "arm"%string) as (H1 & H2 & _).
  destruct (X10_OnLinkCmdVel_stores_by_occurrence (twist 1 1) info
              (configured ["arm"%string]) "arm_extra"%string) as (H3 & _).
  split; [rewrite H1; vm_compute; reflexivity|].
  split; [apply H2; vm_compute; by eexists|].
  rewrite H3; vm_compute; reflexivity.
Defined.

(** *** From a channel to the buffers *)

Lemma Configure_valid_state _entity _sdf ecm :
  Valid ecm _entity = true →
  node (Configure _entity _sdf ecm VelocityControlPrivate_init).1 =
    (modelTopic _sdf ecm _entity, CbOnCmdVel)
    :: ((λ n, (linkTopic ecm _entity n, CbOnLinkCmdVel)) <$> link_name _sdf) ∧
  linkNames (Configure _entity _sdf ecm VelocityControlPrivate_init).1 =
    link_name _sdf ∧
  linkVels (Configure _entity _sdf ecm VelocityControlPrivate_init).1 = ∅.
Proof.
  intros Hv. unfold Configure. cbn [with_model model]. rewrite Hv. cbn [negb].
  destruct (link_name _sdf) as [|a names] eqn:Hnames; [done|].
  rewrite push_linkName_fold. cbn [linkNames Subscribe with_model node app model].
  rewrite subscribe_fold. done.
Qed.

Lemma occurs_linkTopic ecm e n : occurs n (linkTopic ecm e n).
Proof.
  exists ("/model/" ++ ModelName ecm e ++ "/link/")%string, "/cmd_vel"%string.
  unfold linkTopic. by rewrite !string_app_assoc.
Qed.

Lemma deliverStep_keeps ch msg st sub n :
  linkNames (deliverStep ch msg st sub) = linkNames st ∧
  (linkVels st !! n = Some msg → linkVels (deliverStep ch msg st sub) !! n = Some msg) ∧
  (targetVel st = msg → targetVel (deliverStep ch msg st sub) = msg).
Proof.
  unfold deliverStep. case_bool_decide; [|done].
  destruct sub.2; simpl; [done|].
  split; [done|]. split; [|done]. apply OnLinkCmdVel_fold_keeps.
Qed.

Lemma deliver_fold_keeps ch msg n subs :
  ∀ st,
    linkNames (foldl (deliverStep ch msg) st subs) = linkNames st ∧
    (linkVels st !! n = Some msg →
     linkVels (foldl (deliverStep ch msg) st subs) !! n = Some msg) ∧
    (targetVel st = msg → targetVel (foldl (deliverStep ch msg) st subs) = msg).
Proof.
  induction subs as [|sub subs IH]; intros st; [done|].
  cbn [foldl]. destruct (IH (deliverStep ch msg st sub)) as (H1 & H2 & H3).
  destruct (deliverStep_keeps ch msg st sub n) as (K1 & K2 & K3).
  rewrite H1, K1. auto.
Qed.

Lemma deliver_fold_reaches ch msg n subs :
  ∀ st,
    (n ∈ linkNames st → is_Some (find ch n) → linkVels st !! n = None →
     (ch, CbOnLinkCmdVel) ∈ subs →
     linkVels (foldl (deliverStep ch msg) st subs) !! n = Some msg) ∧
    ((ch, CbOnCmdVel) ∈ subs →
     targetVel (foldl (deliverStep ch msg) st subs) = msg).
Proof.
  induction subs as [|sub subs IH]; intros st.
  { split; intros; by match goal with H : _ ∈ [] |- _ => apply elem_of_nil in H end. }
  cbn [foldl]. destruct (IH (deliverStep ch msg st sub)) as [IH1 IH2].
  destruct (deliver_fold_keeps ch msg n subs (deliverStep ch msg st sub))
    as (_ & K2 & K3).
  destruct (deliverStep_keeps ch msg st sub n) as (L1 & _ & _).
  split.
  - intros Hn [i Hf] Hnone Hin.
    apply elem_of_cons in Hin as [<-|Hin].
    + apply K2. unfold deliverStep. cbn [fst snd].
      rewrite bool_decide_true by done. simpl.
      rewrite OnLinkCmdVel_fold_lookup, Hnone, decide_True, Hf by done. done.
    + destruct (linkVels (deliverStep ch msg st sub) !! n) as [m|] eqn:Hafter.
      * (* only a link callback on this channel can have stored something *)
        apply K2. rewrite <- Hafter. unfold deliverStep in *.
        case_bool_decide; [|congruence].
        destruct sub.2; simpl in *; [congruence|].
        rewrite OnLinkCmdVel_fold_lookup, Hnone, decide_True, Hf in Hafter by done.
        rewrite OnLinkCmdVel_fold_lookup, Hnone, decide_True, Hf by done. done.
      * apply IH1; try done. by rewrite L1.
  - intros [<-|Hin]%elem_of_cons.
    + apply K3. unfold deliverStep. cbn [fst snd].
      by rewrite bool_decide_true.
    + by apply IH2.
Qed.

(** X11.  After [Configure] on a valid model, a message published on the
    channel of a configured link is buffered for that link, and a message
    published on the model channel becomes the buffered model command. *)
Theorem X11_channels_reach_their_buffers _entity _sdf ecm n msg :
  Valid ecm _entity = true →
  n ∈ link_name _sdf →
  let st := (Configure _entity _sdf ecm VelocityControlPrivate_init).1 in
  linkVels (deliver (linkTopic ecm _entity n) msg st) !! n = Some msg ∧
  targetVel (deliver (modelTopic _sdf ecm _entity) msg st) = msg.
Proof.
  intros Hv Hn st.
  destruct (Configure_valid_state _entity _sdf ecm Hv) as (Hnode & Hnames & Hlv).
  fold st in Hnode, Hnames, Hlv.
  unfold deliver.
  change (λ st0 sub,
            if bool_decide (sub.1 = ?ch) then
              match sub.2 with
              | CbOnCmdVel => OnCmdVel msg st0
              | CbOnLinkCmdVel => OnLinkCmdVel msg {| Topic := ?ch |} st0
              end
            else st0) with (deliverStep ch msg).
  split.
  - apply deliver_fold_reaches.
    + by rewrite Hnames.
    + apply find_occurs, occurs_linkTopic.
    + by rewrite Hlv.
    + rewrite Hnode. right. apply list_elem_of_fmap. by exists n.
  - apply (deliver_fold_reaches _ msg n). rewrite Hnode. left.
Qed.

Lemma X11_channels_reach_their_buffers_witness :
  let st := (Configure 2 {| topic := None; link_name := ["arm"; "leg"]%string |}
                       robot VelocityControlPrivate_init).1 in
  linkVels (deliver (linkTopic robot 2 "leg") (twist 3 4) st) !! "leg"%string =
    Some (twist 3 4) ∧
  targetVel (deliver (modelTopic {| topic := None;
                                    link_name := ["arm"; "leg"]%string |} robot 2)
                     (twist 3 4) st) = twist 3 4.
Proof.
  apply (X11_channels_reach_their_buffers 2
           {| topic := None; link_name := ["arm"; "leg"]%string |} robot
           "leg"%string (twist 3 4)).
  - vm_compute; reflexivity.
  - right. left.
Defined.

(** *** Further properties of [PreUpdate] *)

Lemma with_VelocityCmds_id ecm :
  with_VelocityCmds (AngularVelocityCmd ecm) (LinearVelocityCmd ecm) ecm = ecm.
Proof. by destruct ecm. Qed.

Lemma with_VelocityCmds_write a l e v ecm :
  with_VelocityCmds a l (writeAngularVelocityCmd e v ecm) = with_VelocityCmds a l ecm ∧
  with_VelocityCmds a l (writeLinearVelocityCmd e v ecm) = with_VelocityCmds a l ecm.
Proof.
  unfold writeAngularVelocityCmd, writeLinearVelocityCmd.
  destruct (AngularVelocityCmd ecm !! e), (LinearVelocityCmd ecm !! e); done.
Qed.

Lemma with_VelocityCmds_linkWriteStep a l st acc item :
  with_VelocityCmds a l (linkWriteStep st acc item).1 = with_VelocityCmds a l acc.1.
Proof.
  unfold linkWriteStep.
  destruct (angularVelocities st !! item.1), (linearVelocities st !! item.1);
    cbn [fst snd];
    rewrite ?(proj2 (with_VelocityCmds_write a l _ _ _)),
            ?(proj1 (with_VelocityCmds_write a l _ _ _)); done.
Qed.

Lemma with_VelocityCmds_linkWrite_fold a l st items0 :
  ∀ acc,
    with_VelocityCmds a l (foldl (linkWriteStep st) acc items0).1 =
    with_VelocityCmds a l acc.1.
Proof.
  induction items0 as [|item items0 IH]; intros acc; [done|].
  change (foldl (linkWriteStep st) acc (item :: items0))
    with (foldl (linkWriteStep st) (linkWriteStep st acc item) items0).
  by rewrite IH, with_VelocityCmds_linkWriteStep.
Qed.

Lemma with_VelocityCmds_PreUpdate a l info ecm st :
  with_VelocityCmds a l (PreUpdate info ecm st).1.2 = with_VelocityCmds a l ecm.
Proof.
  assert (with_VelocityCmds a l (afterModelWrites st ecm) =
          with_VelocityCmds a l ecm) as Hbase.
  { unfold afterModelWrites.
    by rewrite (proj2 (with_VelocityCmds_write a l _ _ _)),
               (proj1 (with_VelocityCmds_write a l _ _ _)). }
  unfold PreUpdate. destruct (paused info); [done|].
  fold (afterModelWrites st ecm).
  destruct (linkNames st); [exact Hbase|].
  case_bool_decide; [exact Hbase|].
  cbn [fst snd]. by rewrite with_VelocityCmds_linkWrite_fold.
Qed.

(** X12.  [PreUpdate] changes nothing in the store but the angular and
    linear velocity-command components, and those only at the model
    entity and at entities bound to a link name after the tick. *)
Theorem X12_PreUpdate_writes_only_velocity_commands info ecm st :
  (PreUpdate info ecm st).1.2 =
    with_VelocityCmds (AngularVelocityCmd (PreUpdate info ecm st).1.2)
                      (LinearVelocityCmd (PreUpdate info ecm st).1.2) ecm ∧
  ∀ e,
    e ≠ model st →
    (∀ n, links (PreUpdate info ecm st).1.1 !! n ≠ Some e) →
    AngularVelocityCmd (PreUpdate info ecm st).1.2 !! e = AngularVelocityCmd ecm !! e ∧
    LinearVelocityCmd (PreUpdate info ecm st).1.2 !! e = LinearVelocityCmd ecm !! e.
Proof.
  split.
  { rewrite <- (with_VelocityCmds_PreUpdate _ _ info ecm st).
    by rewrite with_VelocityCmds_id. }
  intros e Hne. unfold PreUpdate. destruct (paused info); [done|].
  fold (afterModelWrites st ecm).
  destruct (afterModelWrites_frame st ecm) as (_ & _ & _ & HA & HV).
  assert (AngularVelocityCmd (afterModelWrites st ecm) !! e = AngularVelocityCmd ecm !! e ∧
          LinearVelocityCmd (afterModelWrites st ecm) !! e = LinearVelocityCmd ecm !! e)
    as Hbase.
  { rewrite HA, HV. by rewrite !lookup_insert_ne. }
  destruct (linkNames st); [done|].
  case_bool_decide; [done|].
  cbn [fst snd links with_links]. intros Hfree.
  match goal with
  | |- context [foldl (linkWriteStep ?s) ?a0 ?l] =>
      pose proof (λ H, linkWrite_fold_other s e l H a0) as Hw
  end.
  destruct Hw as [-> ->]; [|exact Hbase].
  intros [n e'] Hin. apply elem_of_items in Hin. simpl.
  intros ->. by apply (Hfree n).
Qed.

Lemma X12_PreUpdate_writes_only_velocity_commands_witness :
  let st := configured ["arm"%string] in
  AngularVelocityCmd (PreUpdate unpaused robot st).1.2 !! 4 =
    AngularVelocityCmd robot !! 4 ∧
  LinearVelocityCmd (PreUpdate unpaused robot st).1.2 !! 4 =
    LinearVelocityCmd robot !! 4.
Proof.
  intros st.
  destruct (X12_PreUpdate_writes_only_velocity_commands unpaused robot st)
    as [_ H].
  apply (H 4).
  - vm_compute. intros E. discriminate E.
  - intros n Hn. rewrite PreUpdate_links in Hn. cbn [paused unpaused] in Hn.
    unfold resolution in Hn.
    destruct (links st !! n) eqn:E; [vm_compute in E; discriminate E|].
    destruct (decide (n ∈ linkNames st)) as [Hin|]; [|done].
    apply list_elem_of_singleton in Hin as ->.
    vm_compute in Hn. discriminate Hn.
Defined.

Lemma linkWriteStep_own st acc n e :
  AngularVelocityCmd (linkWriteStep st acc (n, e)).1 !! e =
    match angularVelocities st !! n with
    | Some v => Some v
    | None => AngularVelocityCmd acc.1 !! e
    end ∧
  LinearVelocityCmd (linkWriteStep st acc (n, e)).1 !! e =
    match linearVelocities st !! n with
    | Some v => Some v
    | None => LinearVelocityCmd acc.1 !! e
    end.
Proof.
  unfold linkWriteStep, writeAngularVelocityCmd, writeLinearVelocityCmd.
  cbn [fst snd].
  destruct (angularVelocities st !! n), (linearVelocities st !! n); cbn [fst snd];
    repeat match goal with
           | |- context [match ?x !! ?k with _ => _ end] => destruct (x !! k)
           end; simpl; rewrite ?lookup_insert_eq; done.
Qed.

Lemma linkWrite_fold_own st n e l :
  (∀ item, item ∈ l → item.2 = e → item.1 = n) →
  ∀ acc,
    AngularVelocityCmd (foldl (linkWriteStep st) acc l).1 !! e =
      (if decide ((n, e) ∈ l) then
         match angularVelocities st !! n with
         | Some v => Some v
         | None => AngularVelocityCmd acc.1 !! e
         end
       else AngularVelocityCmd acc.1 !! e) ∧
    LinearVelocityCmd (foldl (linkWriteStep st) acc l).1 !! e =
      (if decide ((n, e) ∈ l) then
         match linearVelocities st !! n with
         | Some v => Some v
         | None => LinearVelocityCmd acc.1 !! e
         end
       else LinearVelocityCmd acc.1 !! e).
Proof.
  induction l as [|[n' e'] l IH]; intros Hl acc.
  { cbn [foldl]. by rewrite decide_False by apply not_elem_of_nil. }
  change (foldl (linkWriteStep st) acc ((n', e') :: l))
    with (foldl (linkWriteStep st) (linkWriteStep st acc (n', e')) l).
  destruct (IH (λ i Hi, Hl i (list_elem_of_further _ _ _ Hi))
               (linkWriteStep st acc (n', e'))) as [-> ->].
  destruct (decide (e' = e)) as [->|Hne].
  - assert (n' = n) as -> by (apply (Hl (n', e)); [left|done]).
    destruct (decide ((n, e) ∈ (n, e) :: l)) as [_|Hc]; [|exfalso; apply Hc; left].
    destruct (linkWriteStep_own st acc n e) as [-> ->].
    destruct (decide ((n, e) ∈ l));
      by destruct (angularVelocities st !! n), (linearVelocities st !! n).
  - destruct (linkWriteStep_other st e acc (n', e') Hne) as [-> ->].
    destruct (decide ((n, e) ∈ l)) as [Hin|Hin].
    + destruct (decide ((n, e) ∈ (n', e') :: l)) as [_|Hc]; [done|].
      exfalso; apply Hc; by right.
    + destruct (decide ((n, e) ∈ (n', e') :: l)) as [Hc|_]; [|done].
      apply elem_of_cons in Hc as [?|?]; [congruence|done].
Qed.

Lemma linkWrite_fold_warns st n e l :
  (n, e) ∈ l →
  ∀ acc,
    (angularVelocities st !! n = None →
     WarnNoAngularVelocity n ∈ (foldl (linkWriteStep st) acc l).2) ∧
    (linearVelocities st !! n = None →
     WarnNoLinearVelocity n ∈ (foldl (linkWriteStep st) acc l).2).
Proof.
  induction l as [|item l IH]; intros Hin acc.
  { by apply elem_of_nil in Hin. }
  change (foldl (linkWriteStep st) acc (item :: l))
    with (foldl (linkWriteStep st) (linkWriteStep st acc item) l).
  apply elem_of_cons in Hin as [<-|Hin]; [|by apply IH].
  destruct (linkWriteStep st acc (n, e)) as [ecm1 log1] eqn:Hstep.
  split; intros Hnone; apply linkWrite_fold_log_keeps;
    unfold linkWriteStep in Hstep; cbn [fst snd] in Hstep;
    rewrite Hnone in Hstep;
    [destruct (linearVelocities st !! n)|]; simplify_eq;
    cbn [fst snd]; rewrite ?elem_of_app, ?list_elem_of_singleton; auto.
Qed.

(** X13.  On an unpaused tick, an entity bound (after the tick) to a
    configured link name, and to no other name, receives that link's
    cached targets: each of its two velocity commands is the cached
    target when there is one (created or overwritten), and is left as it
    was, with a notice on the console, when there is none. *)
Theorem X13_PreUpdate_writes_link_targets info ecm st n e :
  paused info = false →
  n ∈ linkNames st →
  links (PreUpdate info ecm st).1.1 !! n = Some e →
  e ≠ model st →
  (∀ n', links (PreUpdate info ecm st).1.1 !! n' = Some e → n' = n) →
  AngularVelocityCmd (PreUpdate info ecm st).1.2 !! e =
    match angularVelocities st !! n with
    | Some v => Some v
    | None => AngularVelocityCmd ecm !! e
    end ∧
  LinearVelocityCmd (PreUpdate info ecm st).1.2 !! e =
    match linearVelocities st !! n with
    | Some v => Some v
    | None => LinearVelocityCmd ecm !! e
    end ∧
  (angularVelocities st !! n = None →
   WarnNoAngularVelocity n ∈ (PreUpdate info ecm st).2) ∧
  (linearVelocities st !! n = None →
   WarnNoLinearVelocity n ∈ (PreUpdate info ecm st).2).
Proof.
  intros Hp Hn. unfold PreUpdate. rewrite Hp.
  fold (afterModelWrites st ecm).
  destruct (afterModelWrites_frame st ecm) as (_ & _ & _ & HA & HV).
  destruct (linkNames st) as [|a names] eqn:Hnames.
  { by apply elem_of_nil in Hn. }
  case_bool_decide as Hempty.
  { cbn [fst snd links with_links] in *. intros Hb. rewrite Hempty in Hb.
    by rewrite lookup_empty in Hb. }
  cbn [fst snd links with_links angularVelocities linearVelocities] in *.
  intros Hb Hne Huniq.
  match goal with
  | |- context [foldl (linkWriteStep ?s) ?a0 (items ?m)] =>
      pose proof (λ H, linkWrite_fold_own s n e (items m) H a0) as Hown;
      pose proof (linkWrite_fold_warns s n e (items m)
                    (proj2 (elem_of_items m n e) Hb) a0) as [Hwa Hwl]
  end.
  destruct Hown as [-> ->].
  { intros [n' e'] Hin He. simpl in *. subst e'.
    apply elem_of_items in Hin. by apply Huniq. }
  match goal with
  | |- context [decide ?P] =>
      destruct (decide P) as [_|Hc]; [|exfalso; apply Hc; by apply elem_of_items]
  end.
  cbn [fst snd angularVelocities linearVelocities with_links] in *.
  rewrite HA, HV, !lookup_insert_ne by done.
  split; [done|]. split; [done|]. split; [exact Hwa|exact Hwl].
Qed.

Lemma X13_PreUpdate_writes_link_targets_witness :
  let ch := {| Topic := "/model/m/link/arm/cmd_vel" |} in
  let st := PostUpdate unpaused robot
              (OnLinkCmdVel (twist 1 2) ch (configured ["arm"; "arm_extra"]%string)) in
  AngularVelocityCmd (PreUpdate unpaused robot st).1.2 !! 3 =
    match angularVelocities st !! "arm"%string with
    | Some v => Some v
    | None => AngularVelocityCmd robot !! 3
    end ∧
  LinearVelocityCmd (PreUpdate unpaused robot st).1.2 !! 3 =
    match linearVelocities st !! "arm"%string with
    | Some v => Some v
    | None => LinearVelocityCmd robot !! 3
    end ∧
  (angularVelocities st !! "arm"%string = None →
   WarnNoAngularVelocity "arm" ∈ (PreUpdate unpaused robot st).2) ∧
  (linearVelocities st !! "arm"%string = None →
   WarnNoLinearVelocity "arm" ∈ (PreUpdate unpaused robot st).2).
Proof.
  intros ch st.
  apply (X13_PreUpdate_writes_link_targets unpaused robot st "arm"%string 3).
  - reflexivity.
  - left.
  - vm_compute; reflexivity.
  - vm_compute. intros H. discriminate H.
  - intros n' H. rewrite PreUpdate_links in H. cbn [paused unpaused] in H.
    unfold resolution in H.
    destruct (links st !! n') eqn:E; [vm_compute in E; discriminate E|].
    destruct (decide (n' ∈ linkNames st)) as [Hin|]; [|done].
    apply elem_of_cons in Hin as [->|Hin]; [done|].
    apply list_elem_of_singleton in Hin as ->.
    vm_compute in H. discriminate H.
Defined.

(** A state whose per-link targets already cover the buffer is a fixed
    point of [UpdateLinkVelocity]. *)
Lemma UpdateLinkVelocity_saturated st :
  (∀ n, linearVelocities st !! n = None → linkVels st !! n = None) →
  (∀ n, angularVelocities st !! n = None → linkVels st !! n = None) →
  UpdateLinkVelocity st = st.
Proof.
  intros Hl Ha.
  assert (linearVelocities (UpdateLinkVelocity st) = linearVelocities st) as H1.
  { apply map_eq. intros n.
    destruct (UpdateLinkVelocity_lookup st n) as [-> _].
    destruct (linearVelocities st !! n) eqn:E; [done|]. by rewrite (Hl n E). }
  assert (angularVelocities (UpdateLinkVelocity st) = angularVelocities st) as H2.
  { apply map_eq. intros n.
    destruct (UpdateLinkVelocity_lookup st n) as [_ ->].
    destruct (angularVelocities st !! n) eqn:E; [done|]. by rewrite (Ha n E). }
  destruct st. unfold UpdateLinkVelocity in *. simpl in *. by rewrite H1, H2.
Qed.

(** X14.  After an unpaused [PostUpdate], another [PostUpdate] with no
    callback in between changes nothing: the model target and the
    per-link targets are already those of the buffers. *)
Theorem X14_PostUpdate_again_changes_nothing info info2 ecm ecm2 st :
  paused info = false →
  PostUpdate info2 ecm2 (PostUpdate info ecm st) = PostUpdate info ecm st.
Proof.
  intros Hp. unfold PostUpdate. rewrite Hp. destruct (paused info2); [done|].
  set (st1 := UpdateLinkVelocity (UpdateVelocity st)).
  change (UpdateVelocity st1) with st1.
  apply UpdateLinkVelocity_saturated; intros n Hn; subst st1.
  - destruct (UpdateLinkVelocity_lookup (UpdateVelocity st) n) as [H _].
    rewrite H in Hn. simpl in *.
    destruct (linearVelocities st !! n); [done|].
    by destruct (linkVels st !! n).
  - destruct (UpdateLinkVelocity_lookup (UpdateVelocity st) n) as [_ H].
    rewrite H in Hn. simpl in *.
    destruct (angularVelocities st !! n); [done|].
    by destruct (linkVels st !! n).
Qed.

Lemma X14_PostUpdate_again_changes_nothing_witness :
  let ch := {| Topic := "/model/m/link/arm/cmd_vel" |} in
  let st := OnCmdVel (twist 1 2) (OnLinkCmdVel (twist 3 4) ch (configured ["arm"%string])) in
  linearVelocities (PostUpdate unpaused robot st) !! "arm"%string =
    Some (math.Vector3 3 0 0) ∧
  PostUpdate {| dt := 5; paused := false |} robot (PostUpdate unpaused robot st) =
    PostUpdate unpaused robot st.
Proof.
  intros ch st. split; [vm_compute; reflexivity|].
  apply (X14_PostUpdate_again_changes_nothing unpaused
           {| dt := 5; paused := false |} robot robot st).
  reflexivity.
Defined.

Lemma LinkByName_found ecm m n :
  LinkByName ecm m n ≠ kNullEntity →
  ParentEntity ecm !! LinkByName ecm m n = Some m ∧
  Name ecm !! LinkByName ecm m n = Some n ∧
  LinkByName ecm m n ∈ Link ecm.
Proof.
  unfold LinkByName.
  destruct (filter _ (Entities ecm)) as [|e l] eqn:Hf; [done|]. intros _.
  assert (e ∈ e :: l) as He by left. rewrite <- Hf in He.
  apply list_elem_of_filter in He. tauto.
Qed.

Lemma step_linkNames st ev : linkNames (step st ev) = linkNames st.
Proof.
  destruct ev as [msg|msg i|info ecm|info ecm]; simpl; try done.
  - by rewrite PreUpdate_fields.
  - unfold PostUpdate. by destruct (paused info).
Qed.

Lemma step_bound_configured st ev :
  (∀ k, is_Some (links st !! k) → k ∈ linkNames st) →
  ∀ k, is_Some (links (step st ev) !! k) → k ∈ linkNames (step st ev).
Proof.
  intros Hinv k. rewrite step_linkNames.
  destruct ev as [msg|msg i|info ecm|info ecm]; simpl; try apply Hinv.
  - rewrite PreUpdate_links. destruct (paused info); [apply Hinv|].
    unfold resolution. destruct (links st !! k) eqn:E.
    + intros _. apply Hinv. by rewrite E.
    + destruct (decide (k ∈ linkNames st)); [done|]. by intros [? ?].
  - unfold PostUpdate. destruct (paused info); apply Hinv.
Qed.

(** X15.  A link name is only ever bound to what the store says: a
    binding that appears during a tick appears on an unpaused tick, for
    a configured name, and its entity is a child of the model that has
    the [Link] component and carries that name, the one [LinkByName]
    returns.  Over any run, only configured names are bound. *)
Theorem X15_bindings_come_from_the_store info ecm st n e :
  links st !! n = None →
  links (PreUpdate info ecm st).1.1 !! n = Some e →
  (paused info = false ∧ n ∈ linkNames st ∧
   e = LinkByName ecm (model st) n ∧ e ≠ kNullEntity ∧
   ParentEntity ecm !! e = Some (model st) ∧
   Name ecm !! e = Some n ∧ e ∈ Link ecm) ∧
  ∀ evs,
    (∀ k, is_Some (links st !! k) → k ∈ linkNames st) →
    ∀ k, is_Some (links (run evs st) !! k) → k ∈ linkNames (run evs st).
Proof.
  intros Hnone Hnew. split.
  - rewrite PreUpdate_links in Hnew.
    destruct (paused info); [congruence|].
    unfold resolution in Hnew. rewrite Hnone in Hnew.
    destruct (decide (n ∈ linkNames st)); [|done].
    destruct (decide (LinkByName ecm (model st) n = kNullEntity)) as [|Hnz]; [done|].
    simplify_eq. destruct (LinkByName_found ecm (model st) n Hnz) as (? & ? & ?).
    done.
  - intros evs. clear Hnone Hnew. revert st. unfold run.
    induction evs as [|ev evs IH]; intros st Hinv; [done|].
    cbn [foldl]. apply IH. by apply step_bound_configured.
Qed.

Lemma X15_bindings_come_from_the_store_witness :
  let st := configured ["arm"%string] in
  (paused unpaused = false ∧ "arm"%string ∈ linkNames st ∧
   3 = LinkByName robot (model st) "arm" ∧ 3 ≠ kNullEntity ∧
   ParentEntity robot !! 3 = Some (model st) ∧
   Name robot !! 3 = Some "arm"%string ∧ 3 ∈ Link robot) ∧
  ∀ evs,
    (∀ k, is_Some (links st !! k) → k ∈ linkNames st) →
    ∀ k, is_Some (links (run evs st) !! k) → k ∈ linkNames (run evs st).
Proof.
  intros st.
  apply (X15_bindings_come_from_the_store unpaused robot st "arm"%string 3).
  - vm_compute; reflexivity.
  - vm_compute; reflexivity.
Defined.

End VelocityControlFacts.
